(** * whisper-youtube-transcriber: the coordination logic of [app.py]

    A shallow embedding of the URL validator ([extract_video_id]), the
    download progress relay ([ProgressHook]), the download/transcribe
    orchestrator ([download_and_transcribe_with_progress]) and the socket
    gateway ([handle_extraction], [extraction_task]), followed by the
    properties that the specification states about them.

    Modelling conventions.
    - A Python [str] is a sequence of Unicode code points: [list N].
    - A Python [int] is a [Z]; a Python [float] is modelled by the rational
      number it denotes ([Q]).  The divisions of the program divide an
      integer by [1024 * 1024] (exact in binary floating point below 2^53)
      or feed a percentage shown to the user; rounding is monotone, so the
      order properties stated below do not depend on it.
    - The outside world (disk, downloader, recogniser) is a record of the
      answers it gives; the program is a function from that record to the
      trace of what it does (socket emissions, console output, external
      calls) and its result or exception. *)

From Stdlib Require Import String Ascii DecimalString.
From Stdlib Require Import List ZArith NArith QArith Lia Bool Sorted.
Import ListNotations.

Set Implicit Arguments.

(* ================================================================= *)
(** ** Python strings *)

Definition str := list N.

Definition ord (a : ascii) : N := N_of_ascii a.

(** [py "abc"] is the Python string literal ['abc'] (ASCII literals only). *)
Definition py (s : string) : str := map ord (list_ascii_of_string s).

Definition str_eqb (a b : str) : bool :=
  if list_eq_dec N.eq_dec a b then true else false.

(** [str.isspace] on one code point: the Unicode white space of CPython. *)
Definition isspace (c : N) : bool :=
  ((9 <=? c) && (c <=? 13) || (28 <=? c) && (c <=? 32)
   || (c =? 133) || (c =? 160) || (c =? 5760)
   || (8192 <=? c) && (c <=? 8202)
   || (c =? 8232) || (c =? 8233) || (c =? 8239) || (c =? 8287)
   || (c =? 12288))%N.

Fixpoint lstrip (s : str) : str :=
  match s with
  | c :: r => if isspace c then lstrip r else s
  | [] => []
  end.

Definition rstrip (s : str) : str := rev (lstrip (rev s)).

(** [s.strip()] *)
Definition strip (s : str) : str := rstrip (lstrip s).

(** [sep.join(parts)] *)
Fixpoint join (sep : str) (parts : list str) : str :=
  match parts with
  | [] => []
  | [p] => p
  | p :: rest => p ++ sep ++ join sep rest
  end.

(** [c in s] for a one-character [c] *)
Definition contains_char (c : N) (s : str) : bool := existsb (N.eqb c) s.

(** [s.replace(c, '')] for a one-character [c] *)
Definition remove_char (c : N) (s : str) : str :=
  filter (fun x => negb (N.eqb x c)) s.

(** [s.startswith(p)], returning the rest of [s] after [p]. *)
Fixpoint match_prefix (p s : str) : option str :=
  match p, s with
  | [], _ => Some s
  | a :: p', b :: s' => if N.eqb a b then match_prefix p' s' else None
  | _ :: _, [] => None
  end.

Definition startswith (p s : str) : bool :=
  match match_prefix p s with Some _ => true | None => false end.

(* ================================================================= *)
(** ** [extract_video_id]: [re.search(r'(?:v=|\/)([a-zA-Z0-9_-]{11})', url)] *)

Definition in_range (lo hi : ascii) (c : N) : bool :=
  ((ord lo <=? c) && (c <=? ord hi))%N.

(** The character class [[a-zA-Z0-9_-]]. *)
Definition id_char (c : N) : bool :=
  in_range "a" "z" c || in_range "A" "Z" c || in_range "0" "9" c
  || N.eqb c (ord "_") || N.eqb c (ord "-").

(** [[a-zA-Z0-9_-]{n}] anchored at the head of [s]: the group and the rest. *)
Fixpoint match_class_n (n : nat) (s : str) : option (str * str) :=
  match n with
  | O => Some ([], s)
  | S k =>
      match s with
      | c :: r =>
          if id_char c then
            match match_class_n k r with
            | Some (g, rest) => Some (c :: g, rest)
            | None => None
            end
          else None
      | [] => None
      end
  end.

(** One alternative of the non-capturing group followed by the capture. *)
Definition match_alt (lit s : str) : option str :=
  match match_prefix lit s with
  | Some r => option_map fst (match_class_n 11 r)
  | None => None
  end.

(** The whole pattern anchored at the head of [s]; the alternatives are
    tried in order, as the backtracking matcher does.  The result is
    [match.group(1)]. *)
Definition match_here (s : str) : option str :=
  match match_alt (py "v=") s with
  | Some g => Some g
  | None => match_alt (py "/") s
  end.

(** [re.search]: the match at the leftmost start position. *)
Fixpoint search (s : str) : option str :=
  match match_here s with
  | Some g => Some g
  | None =>
      match s with
      | [] => None
      | _ :: r => search r
      end
  end.

(** [None] is Python's [None]. *)
Definition extract_video_id (url : str) : option str := search url.

(** An 11-character token of the class, and the two markers. *)
Definition token (id : str) : Prop :=
  length id = 11%nat /\ forallb id_char id = true.

Definition marker (m : str) : Prop := m = py "v=" \/ m = py "/".

(** No marker-plus-token starts before position [n] of [url]. *)
Definition leftmost (url : str) (n : nat) : Prop :=
  forall pre m id post,
    url = pre ++ m ++ id ++ post -> marker m -> token id ->
    (n <= length pre)%nat.

(* ================================================================= *)
(** ** Numbers and their formatting *)

(** [str(n)] for a natural number. *)
Definition str_of_N (n : N) : str :=
  py (NilZero.string_of_uint (N.to_uint n)).

Definition sign_str (negative : bool) : str :=
  if negative then py "-" else [].

(** [str(z)], also [f"{z}"]. *)
Definition str_of_Z (z : Z) : str :=
  sign_str (z <? 0)%Z ++ str_of_N (Z.abs_N z).

(** Digits in reverse order with a comma after every third one. *)
Fixpoint group_rev (k : nat) (r : str) : str :=
  match r with
  | [] => []
  | c :: r' =>
      match k with
      | 3%nat => ord "," :: c :: group_rev 1 r'
      | _ => c :: group_rev (S k) r'
      end
  end.

(** [f"{z:,}"] *)
Definition format_commas (z : Z) : str :=
  sign_str (z <? 0)%Z ++ rev (group_rev 0 (rev (str_of_N (Z.abs_N z)))).

(** Rounding to the nearest integer, ties to even. *)
Definition round_half_even (q : Q) : Z :=
  let n := Qnum q in
  let d := Z.pos (Qden q) in
  let fl := (n / d)%Z in
  match (2 * (n mod d) ?= d)%Z with
  | Lt => fl
  | Gt => (fl + 1)%Z
  | Eq => if Z.even fl then fl else (fl + 1)%Z
  end.

Definition zero_pad (width : nat) (s : str) : str :=
  repeat (ord "0") (width - length s) ++ s.

(** [f"{q:.<digits>f}"] *)
Definition format_fixed (digits : nat) (q : Q) : str :=
  let scale := (10 ^ Z.of_nat digits)%Z in
  let a := Z.abs (round_half_even (q * inject_Z scale)) in
  sign_str (Qnum q <? 0)%Z
  ++ str_of_N (Z.to_N (a / scale))
  ++ match digits with
     | O => []
     | _ => py "." ++ zero_pad digits (str_of_N (Z.to_N (a mod scale)))
     end.

(** Truth value of a Python [float]. *)
Definition float_truthy (q : Q) : bool := negb (Qeq_bool q 0).

(** A reference instance of the builtin [float] on plain decimal literals
    ([" 42.5 "], ["-3"], [".5"]): enough to run the relay on the percentage
    strings of the downloader.  [None] is [ValueError]. *)
Fixpoint read_digits (acc : Z) (n : nat) (s : str) : Z * nat * str :=
  match s with
  | c :: r =>
      if in_range "0" "9" c
      then read_digits (10 * acc + Z.of_N (c - ord "0")) (S n) r
      else (acc, n, s)
  | [] => (acc, n, [])
  end.

Definition float_decimal (s : str) : option Q :=
  let s := strip s in
  let '(neg, s) :=
    match s with
    | c :: r =>
        if N.eqb c (ord "-") then (true, r)
        else if N.eqb c (ord "+") then (false, r)
        else (false, s)
    | [] => (false, s)
    end in
  let signed (q : Q) : Q := if neg then Qopp q else q in
  let '(ip, ni, r1) := read_digits 0 0 s in
  match r1 with
  | [] => match ni with O => None | _ => Some (signed (inject_Z ip)) end
  | c :: r2 =>
      if N.eqb c (ord ".") then
        let '(fp, nf, r3) := read_digits 0 0 r2 in
        match r3, (ni + nf)%nat with
        | [], S _ =>
            Some (signed (inject_Z ip
                          + inject_Z fp / inject_Z (10 ^ Z.of_nat nf)))
        | _, _ => None
        end
      else None
  end.

(* ================================================================= *)
(** ** Socket events, exceptions and traces *)

Inductive phase_t := download | transcribe.

(** The payload of a ['progress'] event. *)
Record progress_payload := {
  message : str;
  detail : str;
  percentage : Q;
  phase : phase_t
}.

(** [emit(name, payload)]: the three events the server sends. *)
Inductive event :=
| progress (p : progress_payload)
| transcription_complete (transcript : str)
| transcription_error (error : str).

(** Exceptions derived from [Exception]; [except ImportError] tells the
    first class from the others.  [exn_str] is [str(e)]. *)
Inductive exn_class := ImportError | KeyError | ZeroDivisionError | Exception.

Record exn := { exn_cls : exn_class; exn_str : str }.

Inductive result (A : Type) :=
| Ok (a : A)
| Raise (e : exn).
Arguments Ok {A} a.
Arguments Raise {A} e.

(** Calls that leave the program; the world answers them. *)
Inductive external :=
| shutil_disk_usage
| TemporaryDirectory
| TemporaryDirectory_cleanup (temp_dir : str)
| import_yt_dlp
| YoutubeDL (outtmpl : str)
| ydl_download (youtube_url : str)
| os_listdir (temp_dir : str)
| os_path_getsize (audio_file : str)
| import_faster_whisper
| WhisperModel
| model_transcribe (audio_file : str)
| Thread_start (url : str).

(** What an observer sees, in order. *)
Inductive action :=
| Emit (e : event)
| Print (line : str)
| Call (c : external).

(** A computation: the trace it leaves and how it ends. *)
Definition M (A : Type) : Type := list action * result A.

Definition ret {A} (a : A) : M A := ([], Ok a).

Definition bind {A B} (m : M A) (k : A -> M B) : M B :=
  match m with
  | (t, Ok a) => let (t', r) := k a in (t ++ t', r)
  | (t, Raise e) => (t, Raise e)
  end.

Definition raise {A} (e : exn) : M A := ([], Raise e).

(** [try: m  except Exception as e: h e] *)
Definition try_except {A} (m : M A) (h : exn -> M A) : M A :=
  match m with
  | (t, Ok a) => (t, Ok a)
  | (t, Raise e) => let (t', r) := h e in (t ++ t', r)
  end.

(** The end of a [with] block: after [m], on every exit path, the call
    [c]; when that call raises ([failure]), its exception replaces the
    result of [m]. *)
Definition finally {A} (m : M A) (c : external) (failure : option exn)
  : M A :=
  (fst m ++ [Call c],
   match failure with
   | Some e => Raise e
   | None => snd m
   end).

Definition emit (e : event) : M unit := ([Emit e], Ok tt).
Definition print (line : str) : M unit := ([Print line], Ok tt).

(** An external call with the answer of the world. *)
Definition call {A} (c : external) (answer : result A) : M A :=
  ([Call c], answer).

Definition may_raise (o : option exn) : result unit :=
  match o with Some e => Raise e | None => Ok tt end.

Notation "x <- m ;; k" := (bind m (fun x => k))
  (at level 61, m at next level, right associativity).
Notation "m ;; k" := (bind m (fun _ => k))
  (at level 61, right associativity).

Definition when (b : bool) (m : M unit) : M unit := if b then m else ret tt.

Definition emitted (t : list action) : list event :=
  flat_map (fun a => match a with Emit e => [e] | _ => [] end) t.

Definition is_progress (e : event) : bool :=
  match e with progress _ => true | _ => false end.

Definition is_terminal (e : event) : bool := negb (is_progress e).

Definition Exception_ (msg : str) : exn :=
  {| exn_cls := Exception; exn_str := msg |}.

Definition Qltb (x y : Q) : bool := negb (Qle_bool y x).

(* ================================================================= *)
(** ** The outside world *)

(** The dictionary the downloader passes to a progress hook.  A field is
    [None] when the key is absent; the value of ['total_bytes'] may itself
    be Python's [None]. *)
Record notification := {
  status : str;
  total_bytes : option (option Z);
  downloaded_bytes : option Z;
  _percent_str : option str
}.

(** A timed chunk of recognised speech; the program reads its text only. *)
Record segment := { text : str }.

Record transcription_info := {
  language : str;
  language_probability : Q
}.

(** The answers of the world to one run of the orchestrator.  The
    downloader calls the hooks with [download_notifications] in order and
    then returns or raises; the recogniser returns a lazy sequence that
    yields [fst] and then ends or raises [snd]; [temp_dir_removed] is
    the exception, if any, of removing the temporary directory when the
    [with] block is left. *)
Record world := {
  disk_usage : result (Z * Z * Z);
  temp_dir_created : result str;
  temp_dir_removed : option exn;
  yt_dlp_imported : option exn;
  YoutubeDL_opened : option exn;
  download_notifications : list notification;
  download_finished : option exn;
  listdir : result (list str);
  getsize : result Z;
  faster_whisper_imported : option exn;
  model_loaded : option exn;
  transcribed : result ((list segment * option exn) * transcription_info)
}.

(** [os.path.join(a, b)] on POSIX. *)
Definition path_join (a b : str) : str :=
  if startswith (py "/") b then b
  else match rev a with
       | [] => b
       | c :: _ => if N.eqb c (ord "/") then a ++ b else a ++ py "/" ++ b
       end.

(* ================================================================= *)
(** ** The program *)

Section Program.

(** The builtin [float] on strings; [None] is [ValueError]. *)
Variable float : str -> option Q.

(** *** [get_disk_usage] *)

(** The pair is [(free_mb, total_mb)]; [None] is [(None, None)]. *)
Definition get_disk_usage (w : world) : M (option (Q * Q)) :=
  try_except
    (usage <- call shutil_disk_usage (disk_usage w) ;;
     let '(total, used, free) := usage in
     let free_mb := (inject_Z free / inject_Z (1024 * 1024))%Q in
     let total_mb := (inject_Z total / inject_Z (1024 * 1024))%Q in
     ret (Some (free_mb, total_mb)))
    (fun _ => ret None).

(** *** [ProgressHook] *)

Record ProgressHook := { download_progress : Q }.

Definition ProgressHook_init : ProgressHook := {| download_progress := 0 |}.

(** [d[key]] *)
Definition getitem {A} (key : string) (field : option A) : M A :=
  match field with
  | Some v => ret v
  | None =>
      raise {| exn_cls := KeyError; exn_str := py "'" ++ py key ++ py "'" |}
  end.

(** [a / b] where [b] may be [None] *)
Definition truediv (a : Z) (b : option Z) : M Q :=
  match b with
  | None =>
      raise {| exn_cls := Exception;
               exn_str :=
                 py "unsupported operand type(s) for /: 'int' and 'NoneType'" |}
  | Some t =>
      if (t =? 0)%Z
      then raise {| exn_cls := ZeroDivisionError;
                    exn_str := py "division by zero" |}
      else ret (inject_Z a / inject_Z t)%Q
  end.

(** ['total_bytes' in d and d['total_bytes']] *)
Definition has_total_bytes (d : notification) : bool :=
  match total_bytes d with
  | Some (Some t) => negb (t =? 0)%Z
  | Some None => false
  | None => false
  end.

Definition fmt_bytes (v : option Z) : str :=
  match v with Some z => format_commas z | None => py "None" end.

(** The [if 'total_bytes' in d and d['total_bytes']] branch. *)
Definition byte_ratio_branch (self : ProgressHook) (d : notification)
  : M ProgressHook :=
  downloaded <- getitem "downloaded_bytes" (downloaded_bytes d) ;;
  total <- getitem "total_bytes" (total_bytes d) ;;
  ratio <- truediv downloaded total ;;
  let percent := (ratio * 100)%Q in
  emit (progress {|
    message := py "Downloading audio...";
    detail := py "Downloaded " ++ format_commas downloaded
              ++ py " of " ++ fmt_bytes total ++ py " bytes";
    percentage := percent;
    phase := download |}) ;;
  ret {| download_progress := percent |}.

(** The [elif '_percent_str' in d] branch. *)
Definition percent_str_branch (self : ProgressHook) (d : notification)
  : M ProgressHook :=
  match _percent_str d with
  | Some raw =>
      let percent_str := strip raw in
      if contains_char (ord "%") percent_str then
        match float (remove_char (ord "%") percent_str) with
        | Some percent =>
            emit (progress {|
              message := py "Downloading audio...";
              detail := py "Progress: " ++ percent_str;
              percentage := percent;
              phase := download |}) ;;
            ret {| download_progress := percent |}
        | None => ret self
        end
      else ret self
  | None => ret self
  end.

(** [ProgressHook.__call__] *)
Definition ProgressHook_call (self : ProgressHook) (d : notification)
  : M ProgressHook :=
  if str_eqb (status d) (py "downloading") then
    if has_total_bytes d then byte_ratio_branch self d
    else percent_str_branch self d
  else if str_eqb (status d) (py "finished") then
    emit (progress {|
      message := py "Download complete!";
      detail := py "Preparing for transcription...";
      percentage := 100;
      phase := download |}) ;;
    ret self
  else ret self.

(** The downloader feeding its notifications to the hook. *)
Fixpoint run_hook (self : ProgressHook) (ds : list notification)
  : M ProgressHook :=
  match ds with
  | [] => ret self
  | d :: rest => self' <- ProgressHook_call self d ;; run_hook self' rest
  end.

(** [ydl.download([youtube_url])] with [progress_hook] registered. *)
Definition run_download (w : world) (progress_hook : ProgressHook)
    (youtube_url : str) : M unit :=
  call (ydl_download youtube_url) (Ok tt) ;;
  run_hook progress_hook (download_notifications w) ;;
  match download_finished w with
  | Some e => raise e
  | None => ret tt
  end.

(** *** [download_and_transcribe_with_progress] *)

(** The body of [for i, segment in enumerate(segments)] from index [i] on. *)
Fixpoint segment_loop (i : Z) (transcript_parts : list str)
    (segments : list segment) : M (list str) :=
  match segments with
  | [] => ret transcript_parts
  | segment :: rest =>
      let transcript_parts := transcript_parts ++ [text segment] in
      when (i mod 10 =? 0)%Z
        (emit (progress {|
           message := py "Assembling transcript...";
           detail := py "Processing segment " ++ str_of_Z (i + 1);
           percentage :=
             (80 + inject_Z (i * 15)
                   / inject_Z (Z.max 1 (Z.of_nat (length transcript_parts))))%Q;
           phase := transcribe |})) ;;
      segment_loop (i + 1) transcript_parts rest
  end.

(** The whole loop over the lazy sequence. *)
Definition iterate_segments (segments : list segment * option exn)
  : M (list str) :=
  transcript_parts <- segment_loop 0 [] (fst segments) ;;
  match snd segments with
  | Some e => raise e
  | None => ret transcript_parts
  end.

(** [" ".join(transcript_parts).strip()] *)
Definition assemble (transcript_parts : list str) : str :=
  strip (join (py " ") transcript_parts).

Definition transcribe_audio (w : world) (audio_file : str) : M str :=
  try_except
    (call import_faster_whisper (may_raise (faster_whisper_imported w)) ;;
     emit (progress {|
       message := py "Loading Whisper model...";
       detail := py "Initializing base model";
       percentage := 10;
       phase := transcribe |}) ;;
     call WhisperModel (may_raise (model_loaded w)) ;;
     emit (progress {|
       message := py "Transcribing audio...";
       detail := py "Processing speech recognition";
       percentage := 30;
       phase := transcribe |}) ;;
     answer <- call (model_transcribe audio_file) (transcribed w) ;;
     let '(segments, info) := answer in
     emit (progress {|
       message := py "Processing results...";
       detail := py "Detected language: " ++ language info
                 ++ py " (confidence: "
                 ++ format_fixed 2 (language_probability info) ++ py ")";
       percentage := 80;
       phase := transcribe |}) ;;
     transcript_parts <- iterate_segments segments ;;
     let transcript := assemble transcript_parts in
     emit (progress {|
       message := py "Transcription complete!";
       detail := py "Generated "
                 ++ str_of_N (N.of_nat (length transcript))
                 ++ py " characters";
       percentage := 100;
       phase := transcribe |}) ;;
     ret transcript)
    (fun e =>
       match exn_cls e with
       | ImportError =>
           raise (Exception_
             (py "faster-whisper not installed. Please install it first."))
       | _ => raise (Exception_ (py "Transcription failed: " ++ exn_str e))
       end).

Definition download_and_transcribe_with_progress (w : world)
    (youtube_url : str) : M str :=
  print (py "Processing: " ++ youtube_url) ;;
  emit (progress {|
    message := py "Initializing download...";
    detail := py "Setting up yt-dlp";
    percentage := 0;
    phase := download |}) ;;
  usage <- get_disk_usage w ;;
  match usage with
  | Some (free_mb, total_mb) =>
      (if float_truthy free_mb && Qltb free_mb 100
       then raise (Exception_ (py "Insufficient disk space: "
                               ++ format_fixed 0 free_mb
                               ++ py "MB available"))
       else ret tt) ;;
      when (float_truthy free_mb)
        (print (py "Disk space: " ++ format_fixed 0 free_mb
                ++ py "MB free of " ++ format_fixed 0 total_mb
                ++ py "MB total"))
  | None => ret tt
  end ;;
  temp_dir <- call TemporaryDirectory (temp_dir_created w) ;;
  finally
    (try_except
       (let progress_hook := ProgressHook_init in
        call import_yt_dlp (may_raise (yt_dlp_imported w)) ;;
        call (YoutubeDL (temp_dir ++ py "/audio.%(ext)s"))
             (may_raise (YoutubeDL_opened w)) ;;
        run_download w progress_hook youtube_url ;;
        names <- call (os_listdir temp_dir) (listdir w) ;;
        match filter (startswith (py "audio.")) names with
        | [] => raise (Exception_ (py "No audio file found after download"))
        | file0 :: _ =>
            let audio_file := path_join temp_dir file0 in
            file_size <- call (os_path_getsize audio_file) (getsize w) ;;
            let file_size_mb :=
              (inject_Z file_size / inject_Z (1024 * 1024))%Q in
            print (py "Downloaded: " ++ file0 ++ py " ("
                   ++ format_fixed 1 file_size_mb ++ py "MB)") ;;
            emit (progress {|
              message := py "Download complete!";
              detail := py "Audio file: " ++ format_fixed 1 file_size_mb
                        ++ py "MB - preparing for transcription";
              percentage := 100;
              phase := download |}) ;;
            emit (progress {|
              message := py "Starting transcription...";
              detail := py "Loading Whisper model";
              percentage := 0;
              phase := transcribe |}) ;;
            transcribe_audio w audio_file
        end)
       (fun e => raise (Exception_ (py "Processing failed: " ++ exn_str e))))
    (TemporaryDirectory_cleanup temp_dir) (temp_dir_removed w).

(** *** The gateway *)

(** The argument of the handler of ['start_extraction']: whatever JSON
    value the client sent, decoded ([null] is [None], an object a [dict],
    the later of two equal keys winning). *)
#[warnings="-register-all"]
Inductive json :=
| JNull
| JBool (b : bool)
| JInt (z : Z)
| JFloat (q : Q)
| JString (s : str)
| JArray (items : list json)
| JObject (members : list (str * json)).

(** [type(v).__name__] *)
Definition type_name (v : json) : str :=
  match v with
  | JNull => py "NoneType"
  | JBool _ => py "bool"
  | JInt _ => py "int"
  | JFloat _ => py "float"
  | JString _ => py "str"
  | JArray _ => py "list"
  | JObject _ => py "dict"
  end.

(** The truth value of [v]: what [not v] negates. *)
Definition truthy (v : json) : bool :=
  match v with
  | JNull => false
  | JBool b => b
  | JInt z => negb (z =? 0)%Z
  | JFloat q => float_truthy q
  | JString s => match s with [] => false | _ :: _ => true end
  | JArray items => match items with [] => false | _ :: _ => true end
  | JObject members => match members with [] => false | _ :: _ => true end
  end.

(** The value of [key] in a decoded object. *)
Fixpoint lookup (key : str) (members : list (str * json)) : option json :=
  match members with
  | [] => None
  | (k, v) :: rest =>
      match lookup key rest with
      | Some later => Some later
      | None => if str_eqb k key then Some v else None
      end
  end.

(** [data.get(key)]: [None] for a missing key, [AttributeError] when
    [data] is no [dict]. *)
Definition data_get (data : json) (key : str) : M json :=
  match data with
  | JObject members =>
      ret match lookup key members with
          | Some v => v
          | None => JNull
          end
  | _ =>
      raise {| exn_cls := Exception;
               exn_str := py "'" ++ type_name data
                          ++ py "' object has no attribute 'get'" |}
  end.

(** The [TypeError] of [re.search] on a value that is no string (its text
    as CPython 3.11 and later word it). *)
Definition search_TypeError (v : json) : exn :=
  {| exn_cls := Exception;
     exn_str := py "expected string or bytes-like object, got '"
                ++ type_name v ++ py "'" |}.

(** [not s] for a string or [None] *)
Definition falsy (s : option str) : bool :=
  match s with
  | None => true
  | Some [] => true
  | Some (_ :: _) => false
  end.

(** The closure run by the background thread. *)
Definition extraction_task (w : world) (url : str) : M unit :=
  try_except
    (transcript <- download_and_transcribe_with_progress w url ;;
     if falsy (Some transcript)
     then emit (transcription_error (py "No transcript generated"))
     else emit (transcription_complete transcript))
    (fun e => emit (transcription_error (exn_str e))).

(** [handle_extraction]; starting the thread is the call [Thread_start],
    whose trace is [extraction_task] on that URL.  An exception leaves the
    handler without any event. *)
Definition handle_extraction (data : json) : M unit :=
  url <- data_get data (py "url") ;;
  if negb (truthy url)
  then emit (transcription_error (py "No URL provided"))
  else
    match url with
    | JString s =>
        let video_id := extract_video_id s in
        if falsy video_id
        then emit (transcription_error (py "Invalid YouTube URL"))
        else call (Thread_start s) (Ok tt)
    | _ => raise (search_TypeError url)
    end.

End Program.

(* ================================================================= *)
(** ** Vocabulary of the specification *)

(** Decides [leftmost] by running the anchored matcher at the positions
    before [n]. *)
Fixpoint no_match_before (n : nat) (s : str) : bool :=
  match n with
  | O => true
  | S k =>
      match match_here s, s with
      | Some _, _ => false
      | None, [] => true
      | None, _ :: r => no_match_before k r
      end
  end.

(** The progress event of the segment with zero-based index [index] when
    [seen] segments have been accumulated: percentage
    [80 + index*15/seen]. *)
Definition segment_progress (index seen : Z) : event :=
  progress {|
    message := py "Assembling transcript...";
    detail := py "Processing segment " ++ str_of_Z (index + 1);
    percentage := (80 + inject_Z (index * 15) / inject_Z seen)%Q;
    phase := transcribe |}.

(** Every 10th segment: indices 0, 10, 20, ... *)
Definition every_10th (index : Z) : bool := (index mod 10 =? 0)%Z.

(** The indices of a sequence of [n] segments. *)
Definition indices (n : nat) : list Z := map Z.of_nat (seq 0 n).

(** The percentages of the download-phase progress events, in order. *)
Definition download_percentages (evs : list event) : list Q :=
  flat_map (fun e =>
    match e with
    | progress {| percentage := x; phase := download |} => [x]
    | _ => []
    end) evs.

(** A downloading notification with [downloaded] bytes out of [total]. *)
Definition byte_count (d : notification) (downloaded total : Z) : Prop :=
  status d = py "downloading" /\
  total_bytes d = Some (Some total) /\
  downloaded_bytes d = Some downloaded.

(** The ratio of transferred to total bytes, times 100. *)
Definition byte_percent (downloaded total : Z) : Q :=
  (inject_Z downloaded / inject_Z total * 100)%Q.

(** The trace contains a call of the download tool. *)
Definition downloader_invoked (t : list action) : Prop :=
  exists youtube_url, In (Call (ydl_download youtube_url)) t.

(** The trace starts a background thread. *)
Definition thread_started (t : list action) : Prop :=
  exists url, In (Call (Thread_start url)) t.

(** A computation that emits progress events only and starts no thread. *)
Definition relays_progress {A} (m : M A) : Prop :=
  Forall (fun a =>
    match a with
    | Emit e => is_progress e = true
    | Call (Thread_start _) => False
    | _ => True
    end) (fst m).

(* ================================================================= *)
(** ** Sample inputs *)

Definition byte_update (downloaded total : Z) : notification :=
  {| status := py "downloading";
     total_bytes := Some (Some total);
     downloaded_bytes := Some downloaded;
     _percent_str := None |}.

Definition percent_update (percent_str : string) : notification :=
  {| status := py "downloading";
     total_bytes := None;
     downloaded_bytes := None;
     _percent_str := Some (py percent_str) |}.

Definition finished_update : notification :=
  {| status := py "finished";
     total_bytes := None;
     downloaded_bytes := None;
     _percent_str := None |}.

(** A run in which every external step succeeds, with [free] bytes of free
    storage and the given recognised segments. *)
Definition sample_world (free : Z) (texts : list string) : world :=
  {| disk_usage := Ok (250000000000, 250000000000 - free, free)%Z;
     temp_dir_created := Ok (py "/tmp/tmpk3v9x2aa");
     temp_dir_removed := None;
     yt_dlp_imported := None;
     YoutubeDL_opened := None;
     download_notifications :=
       [byte_update 1048576 3500000; percent_update " 60.0%";
        byte_update 3500000 3500000; finished_update];
     download_finished := None;
     listdir := Ok [py "audio.webm"];
     getsize := Ok 3500000%Z;
     faster_whisper_imported := None;
     model_loaded := None;
     transcribed :=
       Ok ((map (fun s => {| text := py s |}) texts, None),
           {| language := py "en"; language_probability := 99 # 100 |}) |}.

(** The same run, but the temporary directory cannot be removed. *)
Definition unremovable_world (texts : list string) : world :=
  let w := sample_world 500000000 texts in
  {| disk_usage := disk_usage w;
     temp_dir_created := temp_dir_created w;
     temp_dir_removed :=
       Some (Exception_ (py "[Errno 39] Directory not empty"));
     yt_dlp_imported := yt_dlp_imported w;
     YoutubeDL_opened := YoutubeDL_opened w;
     download_notifications := download_notifications w;
     download_finished := download_finished w;
     listdir := listdir w;
     getsize := getsize w;
     faster_whisper_imported := faster_whisper_imported w;
     model_loaded := model_loaded w;
     transcribed := transcribed w |}.

Definition sample_url : str := py "https://www.youtube.com/watch?v=dQw4w9WgXcQ".

(* ================================================================= *)
(** ** [open_browser] and [main] *)

(** What the start-up code does, in order. *)
Inductive startup_action :=
| Printed (line : str)
| time_sleep (seconds : Q)
| webbrowser_open (url : str)
| browser_thread_start (host : str) (port : Z)
| socketio_run (host : str) (port : Z).

(** How [socketio.run] ends: it returns, is interrupted from the keyboard
    ([KeyboardInterrupt] is no [Exception]), raises an [Exception], or
    raises another [BaseException] that is neither, such as the
    [SystemExit] of a failed start of the server. *)
Inductive run_outcome :=
| run_returns
| run_KeyboardInterrupt
| run_raises (e : exn)
| run_exits (e : exn).

(** [open_browser(host, port)], the body of the browser thread. *)
Definition open_browser (host : str) (port : Z) : list startup_action :=
  [time_sleep 1.5;
   webbrowser_open (py "http://" ++ host ++ py ":" ++ str_of_Z port)].

Section Startup.

(** The builtin [int] on strings; [Raise] carries its [ValueError]. *)
Variable int : str -> result Z.

(** [os.environ.get] *)
Variable environ : string -> option str.

(** [int(os.environ.get('PORT', 5000))] *)
Definition main_port : result Z :=
  match environ "PORT" with
  | Some s => int s
  | None => Ok 5000%Z
  end.

(** [os.environ.get('HOST', '127.0.0.1')] *)
Definition main_host : str :=
  match environ "HOST" with
  | Some h => h
  | None => py "127.0.0.1"
  end.

(** The address handed to [socketio.run]. *)
Definition bind_host (host : str) : str :=
  if negb (str_eqb host (py "127.0.0.1")) then py "0.0.0.0" else host.

(** [main()] *)
Definition main (outcome : run_outcome)
  : list startup_action * result unit :=
  match main_port with
  | Raise e => ([], Raise e)
  | Ok port =>
      let host := main_host in
      ([Printed (127909%N
                 :: py " YouTube Transcript Extractor - Whisper AI Edition");
        Printed (repeat (ord "=") 60);
        Printed (py "Server running at http://" ++ host ++ py ":"
                 ++ str_of_Z port);
        Printed (py "Features: Real-time progress " ++ [8226%N]
                 ++ py " yt-dlp + Whisper " ++ [8226%N]
                 ++ py " Copy to clipboard");
        Printed (repeat (ord "=") 60)]
       ++ (if str_eqb host (py "127.0.0.1")
           then [Printed (py "Opening browser... Close this window to quit.");
                 browser_thread_start host port]
           else [])
       ++ [socketio_run (bind_host host) port]
       ++ match outcome with
          | run_returns => []
          | run_KeyboardInterrupt =>
              [Printed (10%N :: py "Application stopped.")]
          | run_raises e => [Printed (py "Error: " ++ exn_str e)]
          | run_exits _ => []
          end,
       match outcome with
       | run_exits e => Raise e
       | _ => Ok tt
       end)
  end.

End Startup.

(** A reference instance of the builtin [int] on plain decimal literals,
    and two environments, to run [main] on. *)
Definition int_decimal (s : str) : result Z :=
  match read_digits 0 0 (strip s) with
  | (z, S _, []) => Ok z
  | _ => Raise {| exn_cls := Exception;
                  exn_str := py "invalid literal for int() with base 10" |}
  end.

Definition local_environ (key : string) : option str := None.

Definition cloud_environ (key : string) : option str :=
  if String.eqb key "PORT" then Some (py "8080")
  else if String.eqb key "HOST" then Some (py "10.0.0.7")
  else None.

(* ================================================================= *)
(** ** Further vocabulary *)

(** The percentages of the transcribe-phase progress events, in order. *)
Definition transcribe_percentages (evs : list event) : list Q :=
  flat_map (fun e =>
    match e with
    | progress {| percentage := x; phase := transcribe |} => [x]
    | _ => []
    end) evs.

(** No white space at the head of [s]. *)
Definition head_trimmed (s : str) : Prop :=
  match s with
  | [] => True
  | c :: _ => isspace c = false
  end.

(** No white space at either end of [s]. *)
Definition trimmed (s : str) : Prop :=
  head_trimmed s /\ head_trimmed (rev s).

(** A non-decreasing list of numbers between [lo] and [hi]. *)
Definition climbs (lo hi : Q) (l : list Q) : Prop :=
  StronglySorted Qle l /\ Forall (fun x => lo <= x /\ x <= hi)%Q l.

(** The first exception raised by a stage of the recognition block:
    importing the recogniser, loading the model, the recognition call, the
    iteration of its lazy result. *)
Definition recognition_failure (w : world) : option exn :=
  match faster_whisper_imported w with
  | Some e => Some e
  | None =>
      match model_loaded w with
      | Some e => Some e
      | None =>
          match transcribed w with
          | Raise e => Some e
          | Ok ((_, failure), _) => failure
          end
      end
  end.

(** The texts the recogniser yields. *)
Definition recognised_texts (w : world) : list str :=
  match transcribed w with
  | Ok ((segments, _), _) => map text segments
  | Raise _ => []
  end.

(** The message the recognition block gives to an exception. *)
Definition transcription_error_message (e : exn) : str :=
  match exn_cls e with
  | ImportError => py "faster-whisper not installed. Please install it first."
  | _ => py "Transcription failed: " ++ exn_str e
  end.

(** The percentage reported at the segment of index [i]. *)
Definition segment_percent (i : Z) : Q :=
  (80 + inject_Z (i * 15) / inject_Z (i + 1))%Q.

(** The progress event that follows the recognition call. *)
Definition language_progress (info : transcription_info) : event :=
  progress {|
    message := py "Processing results...";
    detail := py "Detected language: " ++ language info
              ++ py " (confidence: "
              ++ format_fixed 2 (language_probability info) ++ py ")";
    percentage := 80;
    phase := transcribe |}.

(** The progress events of the segments of a result of [n] segments:
    one for every 10th index, with the index and the number of segments
    seen up to and including it. *)
Definition segment_events (n : nat) : list action :=
  map (fun i => Emit (segment_progress i (i + 1)))
      (filter every_10th (indices n)).

(** The progress event that closes a successful transcription. *)
Definition completion_progress (transcript : str) : event :=
  progress {|
    message := py "Transcription complete!";
    detail := py "Generated " ++ str_of_N (N.of_nat (length transcript))
              ++ py " characters";
    percentage := 100;
    phase := transcribe |}.

(** The events of trace [t] end with [ev]. *)
Definition ends_emitting (ev : event) (t : list action) : Prop :=
  exists evs, emitted t = evs ++ [ev].

(** When [m] returns [b], its events end with [ev b]. *)
Definition returns_after {A} (ev : A -> event) (m : M A) : Prop :=
  forall b, snd m = Ok b -> ends_emitting (ev b) (fst m).

(** The transcribe-phase percentages of [m] climb from [lo] to [hi]. *)
Definition phase_climbs {A} (lo hi : Q) (m : M A) : Prop :=
  climbs lo hi (transcribe_percentages (emitted (fst m))).

(** [m] emits no transcribe-phase progress. *)
Definition transcribe_silent {A} (m : M A) : Prop :=
  transcribe_percentages (emitted (fst m)) = [].

(** [m] emits no download-phase progress. *)
Definition download_silent {A} (m : M A) : Prop :=
  download_percentages (emitted (fst m)) = [].

(** The trace of [m] splits in two: no transcribe-phase progress in the
    first part, no download-phase progress in the second. *)
Definition phases_ordered {A} (m : M A) : Prop :=
  exists t1 t2,
    fst m = t1 ++ t2 /\
    transcribe_percentages (emitted t1) = [] /\
    download_percentages (emitted t2) = [].

(** A download-phase progress action. *)
Definition download_event (a : action) : Prop :=
  exists p, a = Emit (progress p) /\ phase p = download.

(* ================================================================= *)
(** ** Properties of the validator *)

Lemma match_prefix_Some p : forall s r,
  match_prefix p s = Some r <-> s = p ++ r.
Proof.
  induction p as [|a p IH]; intros s r; simpl.
  - split; [intros [= ->]; reflexivity | intros ->; reflexivity].
  - destruct s as [|b s].
    + split; [discriminate | intros [=]].
    + destruct (N.eqb_spec a b) as [->|Hne].
      * rewrite IH. split; [intros ->; reflexivity | intros [= ->]; reflexivity].
      * split; [discriminate | intros [= -> _]; congruence].
Qed.

Lemma match_class_n_Some n : forall s g r,
  match_class_n n s = Some (g, r) <->
  s = g ++ r /\ length g = n /\ forallb id_char g = true.
Proof.
  induction n as [|n IH]; intros s g r; simpl.
  - split.
    + intros [= <- <-]. auto.
    + intros (-> & Hl & _). destruct g; [reflexivity | discriminate].
  - destruct s as [|c s].
    + split; [discriminate|].
      intros (H & Hl & _). destruct g; discriminate.
    + destruct (id_char c) eqn:Hc.
      * destruct (match_class_n n s) as [[g' r']|] eqn:Hm.
        -- apply IH in Hm. destruct Hm as (-> & Hl & Hall).
           split.
           ++ intros [= <- <-]. simpl. rewrite Hc, Hall, Hl. auto.
           ++ intros (H & Hl' & Hall').
              destruct g as [|c' g]; [discriminate|].
              simpl in H, Hl', Hall'. injection H as <- H.
              apply andb_true_iff in Hall' as [_ Hall'].
              injection Hl' as Hl'.
              assert (E : match_class_n n (g' ++ r') = Some (g, r))
                by (apply IH; rewrite H; auto).
              assert (E' : match_class_n n (g' ++ r') = Some (g', r'))
                by (apply IH; auto).
              rewrite E in E'. injection E' as -> ->. reflexivity.
        -- split; [discriminate|].
           intros (H & Hl' & Hall').
           destruct g as [|c' g]; [discriminate|].
           simpl in H, Hl', Hall'. injection H as <- H.
           apply andb_true_iff in Hall' as [_ Hall'].
           injection Hl' as Hl'.
           assert (E : match_class_n n s = Some (g, r)) by (apply IH; auto).
           congruence.
      * split; [discriminate|].
        intros (H & Hl' & Hall').
        destruct g as [|c' g]; [discriminate|].
        simpl in H, Hall'. injection H as <- H.
        rewrite Hc in Hall'. discriminate.
Qed.

Lemma match_alt_Some lit s id :
  match_alt lit s = Some id <->
  exists post, s = lit ++ id ++ post /\ token id.
Proof.
  unfold match_alt, token.
  destruct (match_prefix lit s) as [r|] eqn:Hp.
  - apply match_prefix_Some in Hp. subst s.
    destruct (match_class_n 11 r) as [[g rest]|] eqn:Hm; simpl.
    + apply match_class_n_Some in Hm. destruct Hm as (-> & Hl & Hall).
      split.
      * intros [= <-]. exists rest. auto.
      * intros (post & H & Hl' & Hall').
        apply app_inv_head in H.
        assert (E : match_class_n 11 (g ++ rest) = Some (id, post))
          by (apply match_class_n_Some; auto).
        assert (E' : match_class_n 11 (g ++ rest) = Some (g, rest))
          by (apply match_class_n_Some; auto).
        congruence.
    + split; [discriminate|].
      intros (post & H & Hl' & Hall').
      apply app_inv_head in H.
      assert (E : match_class_n 11 r = Some (id, post))
        by (apply match_class_n_Some; auto).
      congruence.
  - split; [discriminate|].
    intros (post & H & _).
    assert (E : match_prefix lit s = Some (id ++ post))
      by (apply match_prefix_Some; assumption).
    congruence.
Qed.

Lemma match_here_Some s id :
  match_here s = Some id <->
  exists m post, s = m ++ id ++ post /\ marker m /\ token id.
Proof.
  unfold match_here.
  destruct (match_alt (py "v=") s) as [g|] eqn:H1.
  - split.
    + intros [= <-]. apply match_alt_Some in H1 as (post & -> & Ht).
      exists (py "v="), post. unfold marker. auto.
    + intros (m & post & Hs & [-> | ->] & Ht).
      * assert (E : match_alt (py "v=") s = Some id)
          by (apply match_alt_Some; eauto).
        congruence.
      * apply match_alt_Some in H1 as (post' & Hs' & _).
        subst s. discriminate.
  - split.
    + intros H2. apply match_alt_Some in H2 as (post & -> & Ht).
      exists (py "/"), post. unfold marker. auto.
    + intros (m & post & Hs & [-> | ->] & Ht).
      * assert (E : match_alt (py "v=") s = Some id)
          by (apply match_alt_Some; eauto).
        congruence.
      * apply match_alt_Some; eauto.
Qed.

Lemma match_here_None s :
  match_here s = None <->
  (forall m id post, s = m ++ id ++ post -> marker m -> token id -> False).
Proof.
  split.
  - intros H m id post Hs Hm Ht.
    assert (E : match_here s = Some id) by (apply match_here_Some; eauto).
    congruence.
  - intros H. destruct (match_here s) as [id|] eqn:E; [|reflexivity].
    apply match_here_Some in E as (m & post & Hs & Hm & Ht).
    exfalso; eauto.
Qed.

Lemma marker_nonempty m : marker m -> exists c r, m = c :: r.
Proof. intros [-> | ->]; cbv; eauto. Qed.

Lemma search_Some : forall s id,
  search s = Some id <->
  exists pre m post,
    s = pre ++ m ++ id ++ post /\ marker m /\ token id /\
    leftmost s (length pre).
Proof.
  induction s as [|c s IH]; intros id.
  - simpl. destruct (match_here []) as [g|] eqn:E.
    + apply match_here_Some in E as (m & post & Hs & Hm & _).
      apply marker_nonempty in Hm as (c & r & ->). discriminate.
    + split; [discriminate|].
      intros (pre & m & post & Hs & Hm & _).
      apply marker_nonempty in Hm as (c & r & ->).
      destruct pre; discriminate.
  - simpl. destruct (match_here (c :: s)) as [g|] eqn:E.
    + split.
      * intros [= <-]. apply match_here_Some in E as (m & post & Hs & Hm & Ht).
        exists [], m, post. split; [|split; [|split]]; auto.
        intros ? ? ? ? _ _ _. simpl. lia.
      * intros (pre & m & post & Hs & Hm & Ht & Hleft).
        pose proof E as E'.
        apply match_here_Some in E' as (m' & post' & Hs' & Hm' & Ht').
        specialize (Hleft [] m' g post' Hs' Hm' Ht'). simpl in Hleft.
        destruct pre; [|simpl in Hleft; lia].
        simpl in Hs.
        assert (E2 : match_here (c :: s) = Some id)
          by (apply match_here_Some; eauto).
        congruence.
    + rewrite IH. pose proof (proj1 (match_here_None _) E) as Hnone.
      split.
      * intros (pre & m & post & -> & Hm & Ht & Hleft).
        exists (c :: pre), m, post. split; [|split; [|split]]; auto.
        intros pre' m' id' post' Hs' Hm' Ht'.
        destruct pre' as [|c' pre'].
        -- exfalso. simpl in Hs'. eapply Hnone; eauto.
        -- simpl in Hs'. injection Hs' as -> Hs'. simpl.
           specialize (Hleft pre' m' id' post' Hs' Hm' Ht'). lia.
      * intros (pre & m & post & Hs & Hm & Ht & Hleft).
        destruct pre as [|c' pre].
        -- exfalso. simpl in Hs. eapply Hnone; eauto.
        -- simpl in Hs. injection Hs as -> Hs.
           exists pre, m, post. split; [|split; [|split]]; auto.
           intros pre' m' id' post' Hs' Hm' Ht'.
           specialize (Hleft (c' :: pre') m' id' post').
           simpl in Hleft. rewrite Hs' in Hleft.
           specialize (Hleft eq_refl Hm' Ht'). lia.
Qed.

Lemma search_None s :
  search s = None <->
  (forall pre m id post,
     s = pre ++ m ++ id ++ post -> marker m -> token id -> False).
Proof.
  induction s as [|c s IH]; simpl.
  - destruct (match_here []) as [g|] eqn:E.
    + apply match_here_Some in E as (m & post & Hs & Hm & _).
      apply marker_nonempty in Hm as (c & r & ->). discriminate.
    + split; [|reflexivity].
      intros _ pre m id post Hs Hm _.
      apply marker_nonempty in Hm as (c & r & ->).
      destruct pre; discriminate.
  - destruct (match_here (c :: s)) as [g|] eqn:E.
    + split; [discriminate|].
      intros H. apply match_here_Some in E as (m & post & Hs & Hm & Ht).
      exfalso. apply (H [] m g post); auto.
    + rewrite IH. pose proof (proj1 (match_here_None _) E) as Hnone.
      split.
      * intros H pre m id post Hs Hm Ht.
        destruct pre as [|c' pre].
        -- simpl in Hs. eapply Hnone; eauto.
        -- simpl in Hs. injection Hs as -> Hs. eapply H; eauto.
      * intros H pre m id post Hs Hm Ht.
        apply (H (c :: pre) m id post); auto. simpl. now rewrite Hs.
Qed.

Lemma no_match_before_leftmost n : forall s,
  no_match_before n s = true -> leftmost s n.
Proof.
  induction n as [|n IH]; intros s H pre m id post Hs Hm Ht; [lia|].
  simpl in H. destruct (match_here s) as [g|] eqn:E; [discriminate|].
  pose proof (proj1 (match_here_None _) E) as Hnone.
  destruct pre as [|c pre].
  - exfalso. simpl in Hs. eapply Hnone; eauto.
  - subst s. simpl in H. simpl.
    specialize (IH _ H pre m id post eq_refl Hm Ht). lia.
Qed.

(** C3, as amended. The validator returns the token of the leftmost
    place where [v=] or [/] is immediately followed by 11 characters of the
    class: a token after either marker is returned when no such place
    starts before it (so a token after [v=] is returned unless an earlier
    [v=] or [/] place exists); whatever is returned is such a leftmost
    token; and a string without any such place is invalid. *)
Theorem extract_video_id_leftmost url :
  (forall pre m id post,
     url = pre ++ m ++ id ++ post -> marker m -> token id ->
     leftmost url (length pre) ->
     extract_video_id url = Some id) /\
  (forall id,
     extract_video_id url = Some id ->
     exists pre m post,
       url = pre ++ m ++ id ++ post /\ marker m /\ token id /\
       leftmost url (length pre)) /\
  ((forall pre m id post,
      url = pre ++ m ++ id ++ post -> marker m -> token id -> False) ->
   extract_video_id url = None).
Proof.
  unfold extract_video_id. split; [|split].
  - intros pre m id post Hs Hm Ht Hleft. apply search_Some.
    exists pre, m, post. auto.
  - intros id H. now apply search_Some.
  - intros H. now apply search_None.
Qed.

Lemma extract_video_id_leftmost_witness :
  extract_video_id sample_url = Some (py "dQw4w9WgXcQ") /\
  extract_video_id (py "https://youtu.be/dQw4w9WgXcQ?t=42")
    = Some (py "dQw4w9WgXcQ") /\
  extract_video_id (py "not a video link") = None.
Proof.
  split; [|split].
  - apply (proj1 (extract_video_id_leftmost sample_url)
             (py "https://www.youtube.com/watch?") (py "v=")
             (py "dQw4w9WgXcQ") []).
    + reflexivity.
    + left. reflexivity.
    + split; reflexivity.
    + apply no_match_before_leftmost. vm_compute. reflexivity.
  - apply (proj1 (extract_video_id_leftmost
                    (py "https://youtu.be/dQw4w9WgXcQ?t=42"))
             (py "https://youtu.be") (py "/") (py "dQw4w9WgXcQ") (py "?t=42")).
    + reflexivity.
    + right. reflexivity.
    + split; reflexivity.
    + apply no_match_before_leftmost. vm_compute. reflexivity.
  - apply (proj2 (proj2 (extract_video_id_leftmost (py "not a video link")))).
    apply search_None. vm_compute. reflexivity.
Defined.

(** C3, as stated, fails: an earlier [/] followed by 11 characters of the
    class wins over the token after [v=]. *)
Lemma extract_video_id_counterexample :
  py "https://youtube-nocookie.com/watch?v=dQw4w9WgXcQ"
    = py "https://youtube-nocookie.com/watch?" ++ py "v="
      ++ py "dQw4w9WgXcQ" ++ [] /\
  token (py "dQw4w9WgXcQ") /\
  extract_video_id (py "https://youtube-nocookie.com/watch?v=dQw4w9WgXcQ")
    = Some (py "youtube-noc") /\
  extract_video_id (py "https://youtube-nocookie.com/watch?v=dQw4w9WgXcQ")
    <> Some (py "dQw4w9WgXcQ").
Proof.
  split; [reflexivity|]. split; [split; reflexivity|].
  split; [vm_compute; reflexivity | vm_compute; discriminate].
Qed.

(* ================================================================= *)
(** ** The trace monad *)

Lemma fst_bind {A B} (m : M A) (k : A -> M B) :
  fst (bind m k) =
  fst m ++ match snd m with Ok a => fst (k a) | Raise _ => [] end.
Proof.
  destruct m as [t [a|e]]; simpl.
  - destruct (k a); reflexivity.
  - now rewrite app_nil_r.
Qed.

Lemma snd_bind {A B} (m : M A) (k : A -> M B) :
  snd (bind m k) =
  match snd m with Ok a => snd (k a) | Raise e => Raise e end.
Proof.
  destruct m as [t [a|e]]; simpl; [destruct (k a)|]; reflexivity.
Qed.

Lemma fst_try_except {A} (m : M A) (h : exn -> M A) :
  fst (try_except m h) =
  fst m ++ match snd m with Ok _ => [] | Raise e => fst (h e) end.
Proof.
  destruct m as [t [a|e]]; simpl.
  - now rewrite app_nil_r.
  - destruct (h e); reflexivity.
Qed.

Lemma snd_try_except {A} (m : M A) (h : exn -> M A) :
  snd (try_except m h) =
  match snd m with Ok a => Ok a | Raise e => snd (h e) end.
Proof.
  destruct m as [t [a|e]]; simpl; [|destruct (h e)]; reflexivity.
Qed.

Lemma snd_finally {A} (m : M A) c failure :
  snd (finally m c failure) =
  match failure with Some e => Raise e | None => snd m end.
Proof. reflexivity. Qed.

Lemma fst_finally {A} (m : M A) c failure :
  fst (finally m c failure) = fst m ++ [Call c].
Proof. reflexivity. Qed.

Lemma emitted_app t1 t2 : emitted (t1 ++ t2) = emitted t1 ++ emitted t2.
Proof. unfold emitted. apply flat_map_app. Qed.

Lemma snd_when b m : snd m = Ok tt -> snd (when b m) = Ok tt.
Proof. destruct b; simpl; auto. Qed.

(** *** Computations that only relay progress *)

Lemma relays_ret {A} (a : A) : relays_progress (ret a).
Proof. constructor. Qed.

Lemma relays_raise {A} e : relays_progress (@raise A e).
Proof. constructor. Qed.

Lemma relays_print line : relays_progress (print line).
Proof. repeat constructor. Qed.

Lemma relays_emit p : relays_progress (emit (progress p)).
Proof. repeat constructor. Qed.

Lemma relays_call {A} c (r : result A) :
  match c with Thread_start _ => False | _ => True end ->
  relays_progress (call c r).
Proof. intros H. constructor; [exact H | constructor]. Qed.

Lemma relays_bind {A B} (m : M A) (k : A -> M B) :
  relays_progress m -> (forall a, relays_progress (k a)) ->
  relays_progress (bind m k).
Proof.
  unfold relays_progress. intros Hm Hk. rewrite fst_bind.
  apply Forall_app. split; [assumption|].
  destruct (snd m); [apply Hk | constructor].
Qed.

Lemma relays_try_except {A} (m : M A) h :
  relays_progress m -> (forall e, relays_progress (h e)) ->
  relays_progress (try_except m h).
Proof.
  unfold relays_progress. intros Hm Hh. rewrite fst_try_except.
  apply Forall_app. split; [assumption|].
  destruct (snd m); [constructor | apply Hh].
Qed.

Lemma relays_finally {A} (m : M A) c failure :
  relays_progress m ->
  match c with Thread_start _ => False | _ => True end ->
  relays_progress (finally m c failure).
Proof.
  unfold relays_progress, finally. intros Hm Hc. simpl.
  apply Forall_app. split; [assumption | constructor; [exact Hc | constructor]].
Qed.

Lemma relays_when b m : relays_progress m -> relays_progress (when b m).
Proof. destruct b; simpl; [auto | intros _; apply relays_ret]. Qed.

Create HintDb relay.
#[local] Hint Resolve relays_ret relays_raise relays_print relays_emit
  relays_when : relay.

(** Decompose a computation along its binds and case distinctions. *)
Ltac relay_step :=
  match goal with
  | |- relays_progress (bind _ _) => apply relays_bind; [|intros]
  | |- relays_progress (try_except _ _) => apply relays_try_except; [|intros]
  | |- relays_progress (finally _ _ _) =>
      apply relays_finally; [|exact I]
  | |- relays_progress (call _ _) => apply relays_call; exact I
  | |- relays_progress (when _ _) => apply relays_when
  | |- relays_progress (match ?x with _ => _ end) => destruct x
  | |- relays_progress _ => solve [auto with relay]
  end.

Lemma relays_progress_emitted {A} (m : M A) :
  relays_progress m -> forallb is_progress (emitted (fst m)) = true.
Proof.
  unfold relays_progress. induction 1 as [|a t Ha _ IH]; [reflexivity|].
  destruct a as [e| |]; simpl; auto. now rewrite Ha.
Qed.

Lemma relays_progress_no_thread {A} (m : M A) :
  relays_progress m -> ~ thread_started (fst m).
Proof.
  unfold relays_progress. intros H [url Hin].
  rewrite Forall_forall in H. apply (H _ Hin).
Qed.

(* ================================================================= *)
(** ** The orchestrator only relays progress *)

Section Relaying.

Variable float : str -> option Q.

Lemma relays_get_disk_usage w : relays_progress (get_disk_usage w).
Proof.
  unfold get_disk_usage. repeat relay_step.
Qed.

Lemma relays_ProgressHook_call self d :
  relays_progress (ProgressHook_call float self d).
Proof.
  unfold ProgressHook_call, byte_ratio_branch, percent_str_branch, getitem,
    truediv.
  repeat relay_step.
Qed.

Lemma relays_run_hook ds : forall self,
  relays_progress (run_hook float self ds).
Proof.
  induction ds as [|d ds IH]; intros self; simpl.
  - apply relays_ret.
  - apply relays_bind; [apply relays_ProgressHook_call | intros; apply IH].
Qed.

Lemma relays_run_download w hook url :
  relays_progress (run_download float w hook url).
Proof.
  unfold run_download.
  repeat first [apply relays_run_hook | relay_step].
Qed.

Lemma relays_segment_loop segments : forall i parts,
  relays_progress (segment_loop i parts segments).
Proof.
  induction segments as [|s segments IH]; intros i parts; simpl.
  - apply relays_ret.
  - apply relays_bind; [|intros; apply IH]. repeat relay_step.
Qed.

Lemma relays_transcribe_audio w audio_file :
  relays_progress (transcribe_audio w audio_file).
Proof.
  unfold transcribe_audio, iterate_segments.
  repeat first [apply relays_segment_loop | relay_step].
Qed.

Lemma relays_orchestrator w url :
  relays_progress (download_and_transcribe_with_progress float w url).
Proof.
  unfold download_and_transcribe_with_progress.
  repeat first [apply relays_get_disk_usage | apply relays_run_download
               | apply relays_transcribe_audio | relay_step].
Qed.

End Relaying.

(* ================================================================= *)
(** ** Normal returns *)

Lemma returns_bind_inv {A B} (m : M A) (k : A -> M B) b :
  snd (bind m k) = Ok b -> exists a, snd m = Ok a /\ snd (k a) = Ok b.
Proof.
  rewrite snd_bind. destruct (snd m) as [a|e]; [eauto | discriminate].
Qed.

Lemma returns_finally_inv {A} (m : M A) c failure a :
  snd (finally m c failure) = Ok a -> snd m = Ok a /\ failure = None.
Proof.
  rewrite snd_finally. destruct failure; [discriminate | auto].
Qed.

Lemma returns_try_inv {A} (m : M A) h a :
  (forall e x, snd (h e) <> Ok x) ->
  snd (try_except m h) = Ok a -> snd m = Ok a.
Proof.
  intros Hh. rewrite snd_try_except.
  destruct (snd m) as [a'|e]; [auto | intros H; destruct (Hh _ _ H)].
Qed.

Lemma segment_loop_returns segments : forall i parts,
  snd (segment_loop i parts segments) = Ok (parts ++ map text segments).
Proof.
  induction segments as [|s segments IH]; intros i parts; simpl.
  - now rewrite app_nil_r.
  - rewrite snd_bind, snd_when by reflexivity.
    rewrite IH, <- app_assoc. reflexivity.
Qed.

Section Returns.

Variable float : str -> option Q.

Lemma transcribe_audio_returns_inv w audio_file t :
  snd (transcribe_audio w audio_file) = Ok t ->
  exists segments info,
    transcribed w = Ok ((segments, None), info) /\
    t = assemble (map text segments).
Proof.
  unfold transcribe_audio. intros H.
  apply returns_try_inv in H;
    [|intros e x; destruct (exn_cls e); discriminate].
  apply returns_bind_inv in H as (_ & _ & H).
  apply returns_bind_inv in H as (_ & _ & H).
  apply returns_bind_inv in H as (_ & _ & H).
  apply returns_bind_inv in H as (_ & _ & H).
  apply returns_bind_inv in H as (answer & Ha & H).
  simpl in Ha. destruct answer as [[segments oe] info].
  apply returns_bind_inv in H as (_ & _ & H).
  apply returns_bind_inv in H as (parts & Hp & H).
  apply returns_bind_inv in H as (_ & _ & H).
  simpl in H. injection H as <-.
  unfold iterate_segments in Hp.
  apply returns_bind_inv in Hp as (parts' & Hl & Hp).
  rewrite segment_loop_returns in Hl. injection Hl as <-.
  simpl in Hp. destruct oe as [e|]; [discriminate|].
  injection Hp as <-. eauto.
Qed.

Lemma orchestrator_returns_inv w url t :
  snd (download_and_transcribe_with_progress float w url) = Ok t ->
  exists audio_file, snd (transcribe_audio w audio_file) = Ok t.
Proof.
  unfold download_and_transcribe_with_progress. intros H.
  apply returns_bind_inv in H as (_ & _ & H).
  apply returns_bind_inv in H as (_ & _ & H).
  apply returns_bind_inv in H as (usage & _ & H).
  apply returns_bind_inv in H as (_ & _ & H).
  apply returns_bind_inv in H as (temp_dir & _ & H).
  apply returns_finally_inv in H as [H _].
  apply returns_try_inv in H; [|intros e x; discriminate].
  apply returns_bind_inv in H as (_ & _ & H).
  apply returns_bind_inv in H as (_ & _ & H).
  apply returns_bind_inv in H as (_ & _ & H).
  apply returns_bind_inv in H as (names & _ & H).
  destruct (filter (startswith (py "audio.")) names) as [|file0 files];
    [discriminate|].
  apply returns_bind_inv in H as (file_size & _ & H).
  apply returns_bind_inv in H as (_ & _ & H).
  apply returns_bind_inv in H as (_ & _ & H).
  apply returns_bind_inv in H as (_ & _ & H).
  eauto.
Qed.

End Returns.

(* ================================================================= *)
(** ** The gateway *)

Lemma filter_terminal_progress evs :
  forallb is_progress evs = true -> filter is_terminal evs = [].
Proof.
  induction evs as [|e evs IH]; simpl; [reflexivity|].
  intros H. apply andb_true_iff in H as [He H].
  unfold is_terminal at 1. rewrite He. simpl. auto.
Qed.

Lemma extraction_task_trace float w url :
  extraction_task float w url =
  (fst (download_and_transcribe_with_progress float w url)
   ++ [Emit match snd (download_and_transcribe_with_progress float w url) with
            | Ok [] => transcription_error (py "No transcript generated")
            | Ok (c :: r) => transcription_complete (c :: r)
            | Raise e => transcription_error (exn_str e)
            end],
   Ok tt).
Proof.
  unfold extraction_task.
  destruct (download_and_transcribe_with_progress float w url)
    as [t [[|c r]|e]]; simpl; now rewrite ?app_nil_r.
Qed.

(** C8. Whatever the world answers, the background task emits the
    progress events of the orchestrator followed by exactly one terminal
    event, which is the last event of the request: the completion event
    carrying the transcript when the orchestrator returned a non-empty
    one, the error event "No transcript generated" when it returned an
    empty one, and the error event carrying the text of the exception
    when it raised. *)
Theorem extraction_task_one_terminal_event float w url :
  exists t,
    fst (extraction_task float w url) =
      fst (download_and_transcribe_with_progress float w url) ++ [Emit t] /\
    snd (extraction_task float w url) = Ok tt /\
    forallb is_progress
      (emitted (fst (download_and_transcribe_with_progress float w url)))
      = true /\
    is_terminal t = true /\
    filter is_terminal (emitted (fst (extraction_task float w url))) = [t] /\
    t = match snd (download_and_transcribe_with_progress float w url) with
        | Ok [] => transcription_error (py "No transcript generated")
        | Ok (c :: r) => transcription_complete (c :: r)
        | Raise e => transcription_error (exn_str e)
        end.
Proof.
  rewrite extraction_task_trace. simpl fst. simpl snd.
  pose proof (relays_progress_emitted
                (relays_orchestrator float w url)) as Hp.
  eexists. split; [reflexivity|]. split; [reflexivity|].
  split; [exact Hp|].
  assert (Ht : forall r : result str,
             is_terminal
               match r with
               | Ok [] => transcription_error (py "No transcript generated")
               | Ok (c :: l) => transcription_complete (c :: l)
               | Raise e => transcription_error (exn_str e)
               end = true)
    by (intros [[|c l]|e]; reflexivity).
  split; [apply Ht|]. split; [|reflexivity].
  rewrite emitted_app, filter_app, (filter_terminal_progress _ Hp).
  simpl. now rewrite Ht.
Qed.




Lemma lookup_url_get members :
  data_get (JObject members) (py "url") =
  ret match lookup (py "url") members with
      | Some v => v
      | None => JNull
      end.
Proof. reflexivity. Qed.

Lemma handle_extraction_on (url : json) members :
  match lookup (py "url") members with Some v => v | None => JNull end = url ->
  handle_extraction (JObject members) =
  if negb (truthy url)
  then emit (transcription_error (py "No URL provided"))
  else
    match url with
    | JString s =>
        if falsy (extract_video_id s)
        then emit (transcription_error (py "Invalid YouTube URL"))
        else call (Thread_start s) (Ok tt)
    | _ => raise (search_TypeError url)
    end.
Proof.
  intros <-. unfold handle_extraction. rewrite lookup_url_get.
  unfold bind, ret. cbn [app].
  match goal with |- (let (t', r) := ?m in _) = _ => destruct m end.
  reflexivity.
Qed.





(* ================================================================= *)
(** ** The progress relay *)

Lemma byte_percent_mono a b total :
  (0 < total)%Z -> (a <= b)%Z ->
  (byte_percent a total <= byte_percent b total)%Q.
Proof.
  intros Ht Hab. unfold byte_percent, Qdiv.
  apply Qmult_le_compat_r; [|discriminate].
  apply Qmult_le_compat_r; [now rewrite <- Zle_Qle|].
  apply Qinv_le_0_compat. change 0%Q with (inject_Z 0).
  rewrite <- Zle_Qle. lia.
Qed.

Lemma byte_percent_full total :
  (0 < total)%Z -> (byte_percent total total == 100)%Q.
Proof.
  intros Ht. unfold byte_percent, Qdiv. rewrite Qmult_inv_r.
  - apply Qmult_1_l.
  - change 0%Q with (inject_Z 0). rewrite inject_Z_injective. lia.
Qed.

Lemma byte_percent_le_100 b total :
  (0 < total)%Z -> (b <= total)%Z -> (byte_percent b total <= 100)%Q.
Proof.
  intros Ht Hb. rewrite <- (byte_percent_full Ht).
  now apply byte_percent_mono.
Qed.

Lemma download_percentages_app e1 e2 :
  download_percentages (e1 ++ e2) =
  download_percentages e1 ++ download_percentages e2.
Proof. unfold download_percentages. apply flat_map_app. Qed.

Section Relay.

Variable float : str -> option Q.

Lemma ProgressHook_call_byte_count self d downloaded total :
  byte_count d downloaded total -> total <> 0%Z ->
  download_percentages (emitted (fst (ProgressHook_call float self d)))
    = [byte_percent downloaded total] /\
  snd (ProgressHook_call float self d)
    = Ok {| download_progress := byte_percent downloaded total |}.
Proof.
  intros (Hs & Ht & Hd) Hnz. unfold ProgressHook_call.
  rewrite Hs. change (str_eqb (py "downloading") (py "downloading")) with true.
  unfold has_total_bytes, byte_ratio_branch, truediv. rewrite Ht, Hd.
  apply Z.eqb_neq in Hnz. rewrite Hnz. simpl. rewrite Hnz. simpl. auto.
Qed.

Lemma ProgressHook_call_finished self d :
  status d = py "finished" ->
  download_percentages (emitted (fst (ProgressHook_call float self d)))
    = [100%Q] /\
  snd (ProgressHook_call float self d) = Ok self.
Proof.
  intros Hs. unfold ProgressHook_call. rewrite Hs.
  change (str_eqb (py "finished") (py "downloading")) with false.
  change (str_eqb (py "finished") (py "finished")) with true.
  simpl. auto.
Qed.

Lemma run_hook_app ds : forall self rest,
  fst (run_hook float self (ds ++ rest)) =
  fst (run_hook float self ds)
  ++ match snd (run_hook float self ds) with
     | Ok self' => fst (run_hook float self' rest)
     | Raise _ => []
     end.
Proof.
  induction ds as [|d ds IH]; intros self rest; simpl.
  - reflexivity.
  - rewrite !fst_bind, snd_bind.
    destruct (snd (ProgressHook_call float self d)) as [self'|e].
    + now rewrite IH, app_assoc.
    + now rewrite !app_nil_r.
Qed.

Lemma run_hook_single self d :
  fst (run_hook float self [d]) = fst (ProgressHook_call float self d).
Proof.
  simpl. rewrite fst_bind.
  destruct (snd (ProgressHook_call float self d)); apply app_nil_r.
Qed.

Lemma run_hook_byte_counts total ds bs :
  total <> 0%Z ->
  Forall2 (fun d b => byte_count d b total) ds bs ->
  forall self,
    download_percentages (emitted (fst (run_hook float self ds)))
      = map (fun b => byte_percent b total) bs /\
    exists self', snd (run_hook float self ds) = Ok self'.
Proof.
  intros Hnz. induction 1 as [|d b ds bs Hd _ IH]; intros self; simpl.
  - eauto.
  - destruct (ProgressHook_call_byte_count self Hd Hnz) as [Hp Hr].
    rewrite fst_bind, snd_bind, Hr, emitted_app, download_percentages_app, Hp.
    destruct (IH {| download_progress := byte_percent b total |})
      as [Hp' Hr'].
    now rewrite Hp'.
Qed.

End Relay.

Lemma byte_percents_sorted total bs :
  (0 < total)%Z ->
  StronglySorted Z.le bs -> Forall (fun b => (b <= total)%Z) bs ->
  StronglySorted Qle (map (fun b => byte_percent b total) bs ++ [100%Q]).
Proof.
  intros Ht. induction 1 as [|b bs _ IH Hb]; intros Hle; simpl.
  - repeat constructor.
  - inversion Hle as [|? ? Hb1 Hbs]; subst. constructor; [auto|].
    apply Forall_app. split.
    + apply Forall_map. revert Hb. apply Forall_impl.
      intros c Hc. now apply byte_percent_mono.
    + constructor; [|constructor]. now apply byte_percent_le_100.
Qed.

(** C4, as amended. Byte-count notifications with a fixed positive total
    and non-decreasing counts that do not exceed the total, followed by a
    finished notification, make the relay emit one download-phase
    percentage per notification, in non-decreasing order, the last one
    being exactly 100. *)
Theorem download_percentages_nondecreasing float self total ds bs f :
  (0 < total)%Z ->
  Forall2 (fun d b => byte_count d b total) ds bs ->
  StronglySorted Z.le bs ->
  Forall (fun b => (b <= total)%Z) bs ->
  status f = py "finished" ->
  StronglySorted Qle
    (download_percentages (emitted (fst (run_hook float self (ds ++ [f])))))
  /\ last (download_percentages
             (emitted (fst (run_hook float self (ds ++ [f]))))) 0%Q = 100%Q
  /\ length (download_percentages
               (emitted (fst (run_hook float self (ds ++ [f])))))
     = S (length ds).
Proof.
  intros Ht Hds Hsorted Hle Hf.
  assert (Hnz : total <> 0%Z) by lia.
  destruct (run_hook_byte_counts float Hnz Hds self) as [Hp [self' Hr]].
  assert (E : download_percentages
                (emitted (fst (run_hook float self (ds ++ [f]))))
              = map (fun b => byte_percent b total) bs ++ [100%Q]).
  { rewrite run_hook_app, Hr, emitted_app, download_percentages_app, Hp.
    f_equal. rewrite run_hook_single.
    apply (ProgressHook_call_finished float self' f Hf). }
  rewrite E. split; [now apply byte_percents_sorted|].
  split; [apply last_last|].
  rewrite length_app, length_map. simpl.
  rewrite <- (Forall2_length Hds). lia.
Qed.

Lemma download_percentages_nondecreasing_witness :
  StronglySorted Qle
    (download_percentages
       (emitted (fst (run_hook float_decimal ProgressHook_init
          ([byte_update 1048576 3500000; byte_update 3500000 3500000]
           ++ [finished_update])))))
  /\ last (download_percentages
       (emitted (fst (run_hook float_decimal ProgressHook_init
          ([byte_update 1048576 3500000; byte_update 3500000 3500000]
           ++ [finished_update]))))) 0%Q = 100%Q
  /\ length (download_percentages
       (emitted (fst (run_hook float_decimal ProgressHook_init
          ([byte_update 1048576 3500000; byte_update 3500000 3500000]
           ++ [finished_update])))))
     = 3%nat.
Proof.
  apply (@download_percentages_nondecreasing float_decimal ProgressHook_init
           3500000%Z
           [byte_update 1048576 3500000; byte_update 3500000 3500000]
           [1048576%Z; 3500000%Z] finished_update).
  - lia.
  - repeat constructor.
  - repeat constructor; lia.
  - repeat constructor; lia.
  - reflexivity.
Defined.

(** C4, as stated, fails: nothing bounds the byte count by the total, and
    200 bytes out of 100 give 200 percent before the final 100. *)
Lemma download_percentages_counterexample :
  (0 < 100)%Z /\
  Forall2 (fun d b => byte_count d b 100) [byte_update 200 100] [200%Z] /\
  StronglySorted Z.le [200%Z] /\
  status finished_update = py "finished" /\
  download_percentages
    (emitted (fst (run_hook float_decimal ProgressHook_init
                     ([byte_update 200 100] ++ [finished_update]))))
    = [byte_percent 200 100; 100%Q] /\
  ~ StronglySorted Qle
      (download_percentages
         (emitted (fst (run_hook float_decimal ProgressHook_init
                          ([byte_update 200 100] ++ [finished_update]))))).
Proof.
  split; [lia|]. split; [repeat constructor|].
  split; [repeat constructor|]. split; [reflexivity|].
  split; [reflexivity|].
  intros H. inversion H as [|x l _ Hall]; subst.
  inversion Hall as [|y l' Hle _]; subst.
  vm_compute in Hle. apply Hle. reflexivity.
Qed.

(** C5. A downloading notification without usable total whose percentage
    string does not parse leaves no trace: no event, no exception, and the
    hook keeps its state. *)
Theorem unparsable_percent_dropped float self d raw :
  status d = py "downloading" ->
  has_total_bytes d = false ->
  _percent_str d = Some raw ->
  float (remove_char (ord "%") (strip raw)) = None ->
  ProgressHook_call float self d = ([], Ok self).
Proof.
  intros Hs Ht Hp Hf. unfold ProgressHook_call.
  rewrite Hs. change (str_eqb (py "downloading") (py "downloading")) with true.
  rewrite Ht. unfold percent_str_branch. rewrite Hp, Hf.
  destruct (contains_char (ord "%") (strip raw)); reflexivity.
Qed.

Lemma unparsable_percent_dropped_witness :
  ProgressHook_call float_decimal ProgressHook_init
    (percent_update " N/A% ") = ([], Ok ProgressHook_init).
Proof.
  apply (@unparsable_percent_dropped float_decimal ProgressHook_init
           (percent_update " N/A% ") (py " N/A% ")).
  - reflexivity.
  - reflexivity.
  - reflexivity.
  - vm_compute. reflexivity.
Defined.

(** The only division of the relay never fails: its guard excludes a zero
    total. *)
Lemma ProgressHook_call_no_ZeroDivisionError float self d e :
  snd (ProgressHook_call float self d) = Raise e ->
  exn_cls e <> ZeroDivisionError.
Proof.
  unfold ProgressHook_call, has_total_bytes.
  destruct (str_eqb (status d) (py "downloading")).
  - destruct (total_bytes d) as [[t|]|] eqn:Ht.
    + destruct (Z.eqb_spec t 0) as [->|Hnz]; simpl.
      * unfold percent_str_branch.
        destruct (_percent_str d) as [raw|]; [|discriminate].
        destruct (contains_char _ _); [|discriminate].
        destruct (float _); discriminate.
      * unfold byte_ratio_branch, truediv. rewrite Ht.
        apply Z.eqb_neq in Hnz.
        destruct (downloaded_bytes d) as [b|]; simpl.
        -- rewrite Hnz. discriminate.
        -- intros [= <-]. discriminate.
    + unfold percent_str_branch.
      destruct (_percent_str d) as [raw|]; [|discriminate].
      destruct (contains_char _ _); [|discriminate].
      destruct (float _); discriminate.
    + unfold percent_str_branch.
      destruct (_percent_str d) as [raw|]; [|discriminate].
      destruct (contains_char _ _); [|discriminate].
      destruct (float _); discriminate.
  - destruct (str_eqb (status d) (py "finished")); discriminate.
Qed.

Lemma percent_str_branch_total float self d :
  (exists self', snd (percent_str_branch float self d) = Ok self') /\
  (length (fst (percent_str_branch float self d)) <= 1)%nat.
Proof.
  unfold percent_str_branch.
  destruct (_percent_str d) as [raw|]; [|simpl; eauto].
  destruct (contains_char _ _); [|simpl; eauto].
  destruct (float _); simpl; eauto.
Qed.

(** C10. A downloading notification whose total is present but zero or
    [None] skips the byte-ratio branch, the only place that divides: the
    relay does what the percentage-string branch does, returns normally and
    emits at most one event. *)
Theorem falsy_total_never_divides float self d v :
  status d = py "downloading" ->
  total_bytes d = Some v ->
  v = None \/ v = Some 0%Z ->
  ProgressHook_call float self d = percent_str_branch float self d /\
  (exists self', snd (ProgressHook_call float self d) = Ok self') /\
  (length (fst (ProgressHook_call float self d)) <= 1)%nat.
Proof.
  intros Hs Ht Hv.
  assert (E : ProgressHook_call float self d
              = percent_str_branch float self d).
  { unfold ProgressHook_call, has_total_bytes. rewrite Hs, Ht.
    change (str_eqb (py "downloading") (py "downloading")) with true.
    destruct Hv as [-> | ->]; reflexivity. }
  rewrite E. split; [reflexivity | apply percent_str_branch_total].
Qed.

Lemma falsy_total_never_divides_witness :
  ProgressHook_call float_decimal ProgressHook_init
    {| status := py "downloading"; total_bytes := Some (Some 0%Z);
       downloaded_bytes := Some 4096%Z; _percent_str := Some (py "12.5%") |}
  = percent_str_branch float_decimal ProgressHook_init
    {| status := py "downloading"; total_bytes := Some (Some 0%Z);
       downloaded_bytes := Some 4096%Z; _percent_str := Some (py "12.5%") |}
  /\ (exists self',
        snd (ProgressHook_call float_decimal ProgressHook_init
          {| status := py "downloading"; total_bytes := Some (Some 0%Z);
             downloaded_bytes := Some 4096%Z;
             _percent_str := Some (py "12.5%") |}) = Ok self')
  /\ (length (fst (ProgressHook_call float_decimal ProgressHook_init
          {| status := py "downloading"; total_bytes := Some (Some 0%Z);
             downloaded_bytes := Some 4096%Z;
             _percent_str := Some (py "12.5%") |})) <= 1)%nat.
Proof.
  apply (@falsy_total_never_divides float_decimal ProgressHook_init
           {| status := py "downloading"; total_bytes := Some (Some 0%Z);
              downloaded_bytes := Some 4096%Z;
              _percent_str := Some (py "12.5%") |} (Some 0%Z)).
  - reflexivity.
  - reflexivity.
  - right. reflexivity.
Defined.

(* ================================================================= *)
(** ** Assembling the transcript *)

Lemma segment_loop_cons i parts s rest :
  Z.of_nat (length parts) = i ->
  segment_loop i parts (s :: rest) =
  (when (every_10th i) (emit (segment_progress i (i + 1))) ;;
   segment_loop (i + 1) (parts ++ [text s]) rest).
Proof.
  intros <-. cbn [segment_loop]. unfold segment_progress, every_10th.
  rewrite length_app. cbn [length].
  replace (Z.max 1 (Z.of_nat (length parts + 1)))
    with (Z.of_nat (length parts) + 1)%Z by lia.
  reflexivity.
Qed.

Lemma segment_loop_trace segments : forall parts,
  fst (segment_loop (Z.of_nat (length parts)) parts segments) =
  map (fun i => Emit (segment_progress i (i + 1)))
      (filter every_10th
         (map Z.of_nat (seq (length parts) (length segments)))).
Proof.
  induction segments as [|s segments IH]; intros parts; [reflexivity|].
  rewrite segment_loop_cons by reflexivity.
  rewrite fst_bind, snd_when by reflexivity.
  pose proof (IH (parts ++ [text s])) as IH'.
  rewrite length_app in IH'. cbn [length] in IH'.
  replace (Z.of_nat (length parts + 1))
    with (Z.of_nat (length parts) + 1)%Z in IH' by lia.
  rewrite IH'. cbn [length seq map filter].
  replace (length parts + 1)%nat with (S (length parts)) by lia.
  destruct (every_10th (Z.of_nat (length parts))); reflexivity.
Qed.

Lemma transcribe_audio_returns w audio_file segments info :
  faster_whisper_imported w = None ->
  model_loaded w = None ->
  transcribed w = Ok ((segments, None), info) ->
  snd (transcribe_audio w audio_file) = Ok (assemble (map text segments)).
Proof.
  intros Hi Hm Ht. unfold transcribe_audio, iterate_segments.
  rewrite Hi, Hm, Ht, snd_try_except.
  repeat (rewrite snd_bind; cbn [snd call emit may_raise fst]).
  rewrite segment_loop_returns.
  repeat (rewrite snd_bind; cbn [snd call emit may_raise fst ret]).
  reflexivity.
Qed.

(** C1, as amended. When the recogniser yields the segments ["Hello"] and
    [" world"], the assembled transcript is ["Hello  world"], with two
    spaces: the separator of the join and the leading space of the second
    segment, which only the ends of the joined text are trimmed of. *)
Theorem assembled_transcript_hello_world float w url segments info :
  transcribed w = Ok ((segments, None), info) ->
  map text segments = [py "Hello"; py " world"] ->
  (forall audio_file,
     faster_whisper_imported w = None -> model_loaded w = None ->
     snd (transcribe_audio w audio_file) = Ok (py "Hello  world")) /\
  (forall t,
     snd (download_and_transcribe_with_progress float w url) = Ok t ->
     t = py "Hello  world").
Proof.
  intros Ht Hsegs. split.
  - intros audio_file Hi Hm.
    rewrite (transcribe_audio_returns w audio_file Hi Hm Ht), Hsegs.
    reflexivity.
  - intros t Hr.
    destruct (orchestrator_returns_inv _ _ _ Hr) as (audio_file & Ha).
    destruct (transcribe_audio_returns_inv _ _ Ha)
      as (segs & info' & Ht' & ->).
    rewrite Ht in Ht'. injection Ht' as <- _. rewrite Hsegs. reflexivity.
Qed.

Lemma assembled_transcript_hello_world_witness :
  snd (transcribe_audio (sample_world 500000000 ["Hello"; " world"]%string)
         (py "/tmp/tmpk3v9x2aa/audio.webm")) = Ok (py "Hello  world") /\
  snd (download_and_transcribe_with_progress float_decimal
         (sample_world 500000000 ["Hello"; " world"]%string) sample_url)
    = Ok (py "Hello  world").
Proof.
  destruct (@assembled_transcript_hello_world float_decimal
              (sample_world 500000000 ["Hello"; " world"]%string) sample_url
              [{| text := py "Hello" |}; {| text := py " world" |}]
              {| language := py "en"; language_probability := 99 # 100 |}
              eq_refl eq_refl) as [Ha Hr].
  split.
  - apply Ha; reflexivity.
  - destruct (snd (download_and_transcribe_with_progress float_decimal
                (sample_world 500000000 ["Hello"; " world"]%string) sample_url))
      as [t|e] eqn:E.
    + now rewrite (Hr t eq_refl).
    + vm_compute in E. discriminate E.
Defined.

(** C1, as stated, fails: the assembled transcript of ["Hello"] and
    [" world"] is not ["Hello world"]. *)
Lemma assembled_transcript_counterexample :
  assemble [py "Hello"; py " world"] = py "Hello  world" /\
  snd (download_and_transcribe_with_progress float_decimal
         (sample_world 500000000 ["Hello"; " world"]%string) sample_url)
    = Ok (py "Hello  world") /\
  py "Hello  world" <> py "Hello world".
Proof.
  split; [reflexivity|]. split; [vm_compute; reflexivity|]. discriminate.
Qed.

(* ================================================================= *)
(** ** The disk-space check *)

Lemma in_fst_bind_l {A B} (m : M A) (k : A -> M B) a :
  In a (fst m) -> In a (fst (bind m k)).
Proof. intros H. rewrite fst_bind. apply in_or_app. now left. Qed.

Lemma in_fst_bind_r {A B} (m : M A) (k : A -> M B) x a :
  snd m = Ok x -> In a (fst (k x)) -> In a (fst (bind m k)).
Proof.
  intros Hm H. rewrite fst_bind, Hm. apply in_or_app. now right.
Qed.

Lemma in_fst_try_except {A} (m : M A) h a :
  In a (fst m) -> In a (fst (try_except m h)).
Proof. intros H. rewrite fst_try_except. apply in_or_app. now left. Qed.

Lemma in_fst_finally {A} (m : M A) c failure a :
  In a (fst m) -> In a (fst (finally m c failure)).
Proof. intros H. rewrite fst_finally. apply in_or_app. now left. Qed.

Lemma get_disk_usage_answer w total used free :
  disk_usage w = Ok (total, used, free) ->
  get_disk_usage w =
  ([Call shutil_disk_usage],
   Ok (Some ((inject_Z free / inject_Z (1024 * 1024))%Q,
             (inject_Z total / inject_Z (1024 * 1024))%Q))).
Proof. intros H. unfold get_disk_usage. rewrite H. reflexivity. Qed.

Lemma free_mb_truthy free :
  float_truthy (inject_Z free / inject_Z (1024 * 1024)) = negb (free =? 0)%Z.
Proof.
  unfold float_truthy, Qeq_bool, Qdiv, Qmult, Qinv, inject_Z. cbn.
  f_equal. rewrite !Z.mul_1_r.
  destruct (Z.eqb_spec free 0) as [->|Hnz]; [reflexivity|].
  destruct free; try contradiction; reflexivity.
Qed.

Lemma free_mb_below_100 free :
  Qltb (inject_Z free / inject_Z (1024 * 1024)) 100
  = (free <? 100 * (1024 * 1024))%Z.
Proof.
  unfold Qltb, Qle_bool, Qdiv, Qmult, Qinv, inject_Z. cbn.
  rewrite !Z.mul_1_r, Z.ltb_antisym. reflexivity.
Qed.

(** Within the positive range the check works as the comment of the
    source says: the run stops after the disk query. *)
Lemma low_disk_space_fails_before_download float w url total used free :
  disk_usage w = Ok (total, used, free) ->
  (0 < free < 100 * (1024 * 1024))%Z ->
  download_and_transcribe_with_progress float w url =
  ([Print (py "Processing: " ++ url);
    Emit (progress {| message := py "Initializing download...";
                      detail := py "Setting up yt-dlp";
                      percentage := 0;
                      phase := download |});
    Call shutil_disk_usage],
   Raise (Exception_
            (py "Insufficient disk space: "
             ++ format_fixed 0 (inject_Z free / inject_Z (1024 * 1024))
             ++ py "MB available"))).
Proof.
  intros Hd Hfree. unfold download_and_transcribe_with_progress.
  rewrite (get_disk_usage_answer w Hd).
  cbn [bind print emit fst snd app].
  rewrite free_mb_truthy, free_mb_below_100.
  destruct (Z.eqb_spec free 0) as [|_]; [lia|].
  destruct (Z.ltb_spec free (100 * (1024 * 1024))) as [_|]; [|lia].
  reflexivity.
Qed.

(** C2 fails on the code at zero free bytes. The check is
    [free_mb and free_mb < 100]: a free space of 0.0 is falsy, the check is
    skipped and the run goes on to call the download tool. *)
Theorem full_disk_reaches_downloader float w url total used temp_dir :
  disk_usage w = Ok (total, used, 0%Z) ->
  temp_dir_created w = Ok temp_dir ->
  yt_dlp_imported w = None ->
  YoutubeDL_opened w = None ->
  downloader_invoked (fst (download_and_transcribe_with_progress float w url)).
Proof.
  intros Hd Ht Hi Hy. exists url.
  unfold download_and_transcribe_with_progress.
  rewrite (get_disk_usage_answer w Hd), Ht, Hi, Hy.
  eapply in_fst_bind_r; [reflexivity|].
  eapply in_fst_bind_r; [reflexivity|].
  eapply in_fst_bind_r; [reflexivity|].
  eapply in_fst_bind_r; [reflexivity|].
  eapply in_fst_bind_r; [reflexivity|].
  apply in_fst_finally, in_fst_try_except.
  eapply in_fst_bind_r; [reflexivity|].
  eapply in_fst_bind_r; [reflexivity|].
  apply in_fst_bind_l. unfold run_download.
  apply in_fst_bind_l. left. reflexivity.
Qed.

Lemma full_disk_reaches_downloader_witness :
  downloader_invoked
    (fst (download_and_transcribe_with_progress float_decimal
            (sample_world 0 ["Hello"; " world"]%string) sample_url)).
Proof.
  apply (@full_disk_reaches_downloader float_decimal
           (sample_world 0 ["Hello"; " world"]%string) sample_url
           250000000000%Z 250000000000%Z (py "/tmp/tmpk3v9x2aa"));
    reflexivity.
Defined.

(* ================================================================= *)
(** ** More on the validator *)

(** X1. A text of fewer than 12 characters is never a valid URL: a marker
    takes at least one character and the token eleven. *)
Theorem short_url_invalid url :
  (length url < 12)%nat -> extract_video_id url = None.
Proof.
  intros Hlen. unfold extract_video_id. apply search_None.
  intros pre m id post -> Hm [Hid _].
  apply marker_nonempty in Hm as (c & r & ->).
  rewrite !length_app in Hlen. simpl in Hlen. lia.
Qed.

Lemma short_url_invalid_witness : extract_video_id (py "/watch?v=x") = None.
Proof. apply (@short_url_invalid (py "/watch?v=x")). simpl. lia. Defined.

(** X2. The validator accepts exactly the texts that contain [v=] or [/]
    immediately followed by an 11-character token, wherever that is: the
    host is not looked at. *)
Theorem extract_video_id_accepts_iff url :
  extract_video_id url <> None <->
  exists pre m id post,
    url = pre ++ m ++ id ++ post /\ marker m /\ token id.
Proof.
  unfold extract_video_id. split.
  - destruct (search url) as [id|] eqn:E; [intros _ | intros H; now destruct H].
    apply search_Some in E as (pre & m & post & Hs & Hm & Ht & _).
    eauto 8.
  - intros (pre & m & id & post & Hs & Hm & Ht) Hnone.
    exact (proj1 (search_None url) Hnone pre m id post Hs Hm Ht).
Qed.

Lemma extract_video_id_accepts_iff_witness :
  extract_video_id (py "ftp://example.org/0123456789a/readme.txt") <> None.
Proof.
  apply (proj2 (extract_video_id_accepts_iff
                  (py "ftp://example.org/0123456789a/readme.txt"))).
  exists (py "ftp://example.org"), (py "/"), (py "0123456789a"),
    (py "/readme.txt").
  split; [reflexivity|]. split; [right; reflexivity | split; reflexivity].
Defined.

Lemma search_at pre m id post :
  marker m -> token id ->
  no_match_before (length pre) (pre ++ m ++ id ++ post) = true ->
  search (pre ++ m ++ id ++ post) = Some id.
Proof.
  intros Hm Ht Hb. apply search_Some. exists pre, m, post.
  split; [reflexivity|]. split; [assumption|]. split; [assumption|].
  now apply no_match_before_leftmost.
Qed.

(** X3. The usual forms of a video URL give the identifier back: for every
    token [id] and every rest, the watch, short-link, embed and shorts
    forms all validate to [id]. *)
Theorem extract_video_id_standard_forms id post :
  token id ->
  extract_video_id (py "https://www.youtube.com/watch?v=" ++ id ++ post)
    = Some id /\
  extract_video_id (py "https://youtu.be/" ++ id ++ post) = Some id /\
  extract_video_id (py "https://www.youtube.com/embed/" ++ id ++ post)
    = Some id /\
  extract_video_id (py "https://www.youtube.com/shorts/" ++ id ++ post)
    = Some id.
Proof.
  intros Ht. unfold extract_video_id. repeat split.
  - apply (@search_at (py "https://www.youtube.com/watch?") (py "v=") id post);
      [left; reflexivity | assumption | reflexivity].
  - apply (@search_at (py "https://youtu.be") (py "/") id post);
      [right; reflexivity | assumption | reflexivity].
  - apply (@search_at (py "https://www.youtube.com/embed") (py "/") id post);
      [right; reflexivity | assumption | reflexivity].
  - apply (@search_at (py "https://www.youtube.com/shorts") (py "/") id post);
      [right; reflexivity | assumption | reflexivity].
Qed.

Lemma extract_video_id_standard_forms_witness :
  extract_video_id
    (py "https://www.youtube.com/watch?v=" ++ py "dQw4w9WgXcQ" ++ py "&t=42s")
    = Some (py "dQw4w9WgXcQ").
Proof.
  apply (@extract_video_id_standard_forms (py "dQw4w9WgXcQ") (py "&t=42s")).
  split; reflexivity.
Defined.

(* ================================================================= *)
(** ** More on the progress relay *)

Lemma ProgressHook_call_shape float self d :
  fst (ProgressHook_call float self d) = [] \/
  exists p,
    fst (ProgressHook_call float self d) = [Emit (progress p)] /\
    phase p = download.
Proof.
  unfold ProgressHook_call.
  destruct (str_eqb (status d) (py "downloading")).
  - destruct (has_total_bytes d).
    + unfold byte_ratio_branch, getitem, truediv.
      destruct (downloaded_bytes d) as [b|]; [|now left].
      destruct (total_bytes d) as [[t|]|]; try now left.
      simpl. destruct (t =? 0)%Z; [now left|].
      right. eexists. split; reflexivity.
    + unfold percent_str_branch.
      destruct (_percent_str d) as [raw|]; [|now left].
      destruct (contains_char _ _); [|now left].
      destruct (float _); [|now left].
      right. eexists. split; reflexivity.
  - destruct (str_eqb (status d) (py "finished")); [|now left].
    right. eexists. split; reflexivity.
Qed.

Lemma run_hook_shape float ds : forall self,
  Forall download_event (fst (run_hook float self ds)) /\
  (length (fst (run_hook float self ds)) <= length ds)%nat.
Proof.
  induction ds as [|d ds IH]; intros self; simpl.
  - split; [constructor | lia].
  - rewrite fst_bind, length_app.
    assert (Hd : Forall download_event (fst (ProgressHook_call float self d))
                 /\ (length (fst (ProgressHook_call float self d)) <= 1)%nat).
    { destruct (ProgressHook_call_shape float self d) as [-> | (p & -> & Hp)].
      - split; [constructor | simpl; lia].
      - split; [|simpl; lia].
        constructor; [|constructor]. exists p. auto. }
    destruct Hd as [Hall Hlen].
    destruct (snd (ProgressHook_call float self d)) as [self'|e].
    + destruct (IH self') as [Hall' Hlen'].
      split; [apply Forall_app; auto | lia].
    + split; [apply Forall_app; auto | simpl; lia].
Qed.

(** X4. Whatever the downloader sends, the relay answers each notification
    with at most one event, and every event it emits is a download-phase
    progress event: never a transcribe-phase or a terminal one. *)
Theorem run_hook_download_events float self ds :
  Forall download_event (fst (run_hook float self ds)) /\
  (length (fst (run_hook float self ds)) <= length ds)%nat.
Proof. apply run_hook_shape. Qed.

(** A percentage string with a percent sign whose number parses is
    relayed as one download-phase event carrying that number, and the hook
    remembers it. *)
Lemma percent_string_relayed float self d raw x :
  status d = py "downloading" ->
  has_total_bytes d = false ->
  _percent_str d = Some raw ->
  contains_char (ord "%") (strip raw) = true ->
  float (remove_char (ord "%") (strip raw)) = Some x ->
  ProgressHook_call float self d =
  ([Emit (progress {| message := py "Downloading audio...";
                      detail := py "Progress: " ++ strip raw;
                      percentage := x;
                      phase := download |})],
   Ok {| download_progress := x |}).
Proof.
  intros Hs Ht Hp Hc Hf. unfold ProgressHook_call.
  rewrite Hs. change (str_eqb (py "downloading") (py "downloading")) with true.
  rewrite Ht. unfold percent_str_branch. rewrite Hp, Hc, Hf. reflexivity.
Qed.

Lemma percent_string_relayed_witness :
  ProgressHook_call float_decimal ProgressHook_init (percent_update " 60.0%")
  = ([Emit (progress {| message := py "Downloading audio...";
                        detail := py "Progress: " ++ strip (py " 60.0%");
                        percentage := 60.0;
                        phase := download |})],
     Ok {| download_progress := 60.0 |}).
Proof.
  apply (@percent_string_relayed float_decimal ProgressHook_init
           (percent_update " 60.0%") (py " 60.0%") 60.0%Q);
    reflexivity.
Defined.

(** X5. A percentage string without a percent sign is dropped, even when
    it is a number [float] would parse. *)
Theorem percent_string_without_sign_dropped float self d raw :
  status d = py "downloading" ->
  has_total_bytes d = false ->
  _percent_str d = Some raw ->
  contains_char (ord "%") (strip raw) = false ->
  ProgressHook_call float self d = ([], Ok self).
Proof.
  intros Hs Ht Hp Hc. unfold ProgressHook_call.
  rewrite Hs. change (str_eqb (py "downloading") (py "downloading")) with true.
  rewrite Ht. unfold percent_str_branch. rewrite Hp, Hc. reflexivity.
Qed.

Lemma percent_string_without_sign_dropped_witness :
  float_decimal (py "60.0") = Some 60.0%Q /\
  ProgressHook_call float_decimal ProgressHook_init (percent_update "60.0")
  = ([], Ok ProgressHook_init).
Proof.
  split; [reflexivity|].
  apply (@percent_string_without_sign_dropped float_decimal ProgressHook_init
           (percent_update "60.0") (py "60.0"));
    reflexivity.
Defined.

(** X6. A downloading notification with a usable total but no
    ['downloaded_bytes'] key makes the hook raise [KeyError] before it
    emits anything. *)
Theorem missing_downloaded_bytes_raises float self d :
  status d = py "downloading" ->
  has_total_bytes d = true ->
  downloaded_bytes d = None ->
  ProgressHook_call float self d =
  ([], Raise {| exn_cls := KeyError; exn_str := py "'downloaded_bytes'" |}).
Proof.
  intros Hs Ht Hd. unfold ProgressHook_call.
  rewrite Hs. change (str_eqb (py "downloading") (py "downloading")) with true.
  rewrite Ht. unfold byte_ratio_branch. rewrite Hd. reflexivity.
Qed.

Lemma missing_downloaded_bytes_raises_witness :
  ProgressHook_call float_decimal ProgressHook_init
    {| status := py "downloading"; total_bytes := Some (Some 3500000%Z);
       downloaded_bytes := None; _percent_str := Some (py "12.5%") |} =
  ([], Raise {| exn_cls := KeyError; exn_str := py "'downloaded_bytes'" |}).
Proof.
  apply (@missing_downloaded_bytes_raises float_decimal ProgressHook_init
           {| status := py "downloading"; total_bytes := Some (Some 3500000%Z);
              downloaded_bytes := None; _percent_str := Some (py "12.5%") |});
    reflexivity.
Defined.

(** X7. For byte counts between 0 and a positive total the relayed
    percentage lies between 0 and 100, and a complete transfer reports
    100. *)
Theorem byte_ratio_percentage_in_range float self d downloaded total :
  byte_count d downloaded total ->
  (0 <= downloaded <= total)%Z -> (0 < total)%Z ->
  exists x,
    download_percentages (emitted (fst (ProgressHook_call float self d)))
      = [x] /\
    (0 <= x)%Q /\ (x <= 100)%Q /\
    (downloaded = total -> (x == 100)%Q).
Proof.
  intros Hd [H0 Hle] Ht.
  assert (Hnz : total <> 0%Z) by lia.
  destruct (ProgressHook_call_byte_count float self Hd Hnz) as [Hp _].
  exists (byte_percent downloaded total). split; [exact Hp|].
  split; [|split].
  - assert (E : (byte_percent 0 total == 0)%Q)
      by (unfold byte_percent, Qdiv; now rewrite !Qmult_0_l).
    rewrite <- E. now apply byte_percent_mono.
  - now apply byte_percent_le_100.
  - intros ->. now apply byte_percent_full.
Qed.

Lemma byte_ratio_percentage_in_range_witness :
  exists x,
    download_percentages
      (emitted (fst (ProgressHook_call float_decimal ProgressHook_init
                       (byte_update 3500000 3500000)))) = [x] /\
    (0 <= x)%Q /\ (x <= 100)%Q /\
    (3500000%Z = 3500000%Z -> (x == 100)%Q).
Proof.
  apply (@byte_ratio_percentage_in_range float_decimal ProgressHook_init
           (byte_update 3500000 3500000) 3500000%Z 3500000%Z).
  - repeat split.
  - lia.
  - lia.
Defined.

(* ================================================================= *)
(** ** Trimming *)

Lemma lstrip_head_trimmed s : head_trimmed (lstrip s).
Proof.
  induction s as [|c s IH]; simpl; [exact I|].
  destruct (isspace c) eqn:E; [exact IH | exact E].
Qed.

Lemma lstrip_app l c t :
  isspace c = false -> lstrip (l ++ c :: t) = lstrip l ++ c :: t.
Proof.
  intros Hc. induction l as [|a l IH]; simpl.
  - now rewrite Hc.
  - destruct (isspace a); [exact IH | reflexivity].
Qed.

Lemma strip_trimmed s : trimmed (strip s).
Proof.
  unfold trimmed, strip, rstrip. split.
  - pose proof (lstrip_head_trimmed s) as H.
    destruct (lstrip s) as [|c r]; [exact I|].
    simpl in H. simpl rev at 2.
    rewrite (@lstrip_app (rev r) c [] H), rev_app_distr. exact H.
  - rewrite rev_involutive. apply lstrip_head_trimmed.
Qed.

Lemma lstrip_spaces s : forallb isspace s = true -> lstrip s = [].
Proof.
  induction s as [|c s IH]; simpl; [reflexivity|].
  intros H. apply andb_true_iff in H as [Hc Hs]. rewrite Hc. auto.
Qed.

Lemma join_spaces parts :
  Forall (fun p => forallb isspace p = true) parts ->
  forallb isspace (join (py " ") parts) = true.
Proof.
  induction 1 as [|p parts Hp _ IH]; [reflexivity|].
  destruct parts as [|q parts]; [exact Hp|].
  change (join (py " ") (p :: q :: parts))
    with (p ++ py " " ++ join (py " ") (q :: parts)).
  rewrite !forallb_app, Hp, IH. reflexivity.
Qed.

Lemma assemble_spaces parts :
  Forall (fun p => forallb isspace p = true) parts -> assemble parts = [].
Proof.
  intros H. unfold assemble, strip.
  now rewrite (lstrip_spaces _ (join_spaces H)).
Qed.

(** X8. A transcript the orchestrator returns has no white space at either
    end. *)
Theorem returned_transcript_trimmed float w url t :
  snd (download_and_transcribe_with_progress float w url) = Ok t ->
  trimmed t.
Proof.
  intros Hr.
  destruct (orchestrator_returns_inv _ _ _ Hr) as (audio_file & Ha).
  destruct (transcribe_audio_returns_inv _ _ Ha) as (segs & info & _ & ->).
  apply strip_trimmed.
Qed.

Lemma returned_transcript_trimmed_witness :
  trimmed (py "Thanks for  watching.").
Proof.
  apply (@returned_transcript_trimmed float_decimal
           (sample_world 500000000 ["  Thanks for"; " watching. "]%string)
           sample_url (py "Thanks for  watching.")).
  vm_compute. reflexivity.
Defined.

(** X9. When every recognised segment is white space only and the
    orchestrator returns, the request ends with the error
    "No transcript generated", exactly as for no segment at all. *)
Theorem blank_segments_no_transcript float w url segments info t :
  transcribed w = Ok ((segments, None), info) ->
  Forall (fun s => forallb isspace (text s) = true) segments ->
  snd (download_and_transcribe_with_progress float w url) = Ok t ->
  t = [] /\
  fst (extraction_task float w url) =
    fst (download_and_transcribe_with_progress float w url)
    ++ [Emit (transcription_error (py "No transcript generated"))].
Proof.
  intros Hw Hblank Hr.
  destruct (orchestrator_returns_inv _ _ _ Hr) as (audio_file & Ha).
  destruct (transcribe_audio_returns_inv _ _ Ha) as (segs & info' & Hw' & ->).
  rewrite Hw in Hw'. injection Hw' as <- _.
  assert (E : assemble (map text segments) = []).
  { apply assemble_spaces. apply Forall_map. exact Hblank. }
  split; [exact E|].
  rewrite extraction_task_trace, Hr, E. reflexivity.
Qed.

Lemma blank_segments_no_transcript_witness :
  @nil N = [] /\
  fst (extraction_task float_decimal
         (sample_world 500000000 [" "; "  "]%string) sample_url) =
    fst (download_and_transcribe_with_progress float_decimal
           (sample_world 500000000 [" "; "  "]%string) sample_url)
    ++ [Emit (transcription_error (py "No transcript generated"))].
Proof.
  apply (@blank_segments_no_transcript float_decimal
           (sample_world 500000000 [" "; "  "]%string) sample_url
           [{| text := py " " |}; {| text := py "  " |}]
           {| language := py "en"; language_probability := 99 # 100 |} []).
  - reflexivity.
  - repeat constructor.
  - vm_compute. reflexivity.
Defined.

(* ================================================================= *)
(** ** More on the disk-space check *)

Lemma fst_bind_ok {A B} (m : M A) (k : A -> M B) a :
  snd m = Ok a -> fst (bind m k) = fst m ++ fst (k a).
Proof. intros H. now rewrite fst_bind, H. Qed.

Lemma disk_check_raises float w url total used free :
  disk_usage w = Ok (total, used, free) ->
  free <> 0%Z -> (free < 100 * (1024 * 1024))%Z ->
  exists e,
    download_and_transcribe_with_progress float w url =
    ([Print (py "Processing: " ++ url);
      Emit (progress {| message := py "Initializing download...";
                        detail := py "Setting up yt-dlp";
                        percentage := 0;
                        phase := download |});
      Call shutil_disk_usage],
     Raise e).
Proof.
  intros Hd Hnz Hlt. unfold download_and_transcribe_with_progress.
  rewrite (get_disk_usage_answer w Hd).
  cbn [bind print emit fst snd app].
  rewrite free_mb_truthy, free_mb_below_100.
  destruct (Z.eqb_spec free 0) as [|_]; [contradiction|].
  destruct (Z.ltb_spec free (100 * (1024 * 1024))) as [_|]; [|lia].
  eexists. reflexivity.
Qed.

Lemma disk_check_passes float w url total used free :
  disk_usage w = Ok (total, used, free) ->
  free = 0%Z \/ (100 * (1024 * 1024) <= free)%Z ->
  In (Call TemporaryDirectory)
     (fst (download_and_transcribe_with_progress float w url)).
Proof.
  intros Hd Hfree. unfold download_and_transcribe_with_progress.
  rewrite (get_disk_usage_answer w Hd).
  eapply in_fst_bind_r; [reflexivity|].
  eapply in_fst_bind_r; [reflexivity|].
  eapply in_fst_bind_r; [reflexivity|].
  cbv beta iota.
  rewrite free_mb_truthy, free_mb_below_100.
  assert (Hc : (negb (free =? 0)%Z
                && (free <? 100 * (1024 * 1024))%Z) = false).
  { destruct Hfree as [-> | Hge]; [reflexivity|].
    destruct (Z.ltb_spec free (100 * (1024 * 1024))); [lia|].
    apply andb_false_r. }
  rewrite Hc.
  eapply in_fst_bind_r.
  - rewrite snd_bind. cbn [snd ret]. apply snd_when. reflexivity.
  - apply in_fst_bind_l. left. reflexivity.
Qed.

(** X10. With a disk report in hand, the orchestrator goes on to create
    its temporary directory exactly when the free space is zero or at
    least 100 * 1024 * 1024 bytes; the boundary value itself passes. *)
Theorem disk_check_threshold float w url total used free :
  disk_usage w = Ok (total, used, free) ->
  (In (Call TemporaryDirectory)
      (fst (download_and_transcribe_with_progress float w url))
   <-> free = 0%Z \/ (100 * (1024 * 1024) <= free)%Z).
Proof.
  intros Hd. split.
  - intros Hin.
    destruct (Z.eq_dec free 0) as [|Hnz]; [now left|].
    destruct (Z_lt_le_dec free (100 * (1024 * 1024))) as [Hlt|]; [|now right].
    destruct (disk_check_raises float w url Hd Hnz Hlt) as [e E].
    rewrite E in Hin. simpl in Hin.
    destruct Hin as [H|[H|[H|[]]]]; discriminate.
  - intros Hfree. exact (disk_check_passes float w url Hd Hfree).
Qed.

Lemma disk_check_threshold_witness :
  In (Call TemporaryDirectory)
     (fst (download_and_transcribe_with_progress float_decimal
             (sample_world 104857600 ["Hello"]%string) sample_url)).
Proof.
  apply (proj2 (@disk_check_threshold float_decimal
                  (sample_world 104857600 ["Hello"]%string) sample_url
                  250000000000%Z (250000000000 - 104857600)%Z 104857600%Z
                  eq_refl)).
  right. lia.
Defined.

(** X11. When the disk query itself fails, the check is skipped: the run
    goes straight on to the temporary directory, without a disk-space
    line on the console. *)
Theorem disk_query_failure_tolerated float w url e :
  disk_usage w = Raise e ->
  exists rest,
    fst (download_and_transcribe_with_progress float w url) =
    [Print (py "Processing: " ++ url);
     Emit (progress {| message := py "Initializing download...";
                       detail := py "Setting up yt-dlp";
                       percentage := 0;
                       phase := download |});
     Call shutil_disk_usage;
     Call TemporaryDirectory] ++ rest.
Proof.
  intros Hd.
  assert (G : get_disk_usage w = ([Call shutil_disk_usage], Ok None))
    by (unfold get_disk_usage; rewrite Hd; reflexivity).
  unfold download_and_transcribe_with_progress. rewrite G.
  do 4 (erewrite fst_bind_ok; [|reflexivity]).
  rewrite fst_bind.
  eexists. reflexivity.
Qed.

Lemma disk_query_failure_tolerated_witness :
  exists rest,
    fst (download_and_transcribe_with_progress float_decimal
           {| disk_usage := Raise (Exception_ (py "[Errno 2] No such file"));
              temp_dir_created := Raise (Exception_ (py "[Errno 28] No space"));
              temp_dir_removed := None;
              yt_dlp_imported := None; YoutubeDL_opened := None;
              download_notifications := []; download_finished := None;
              listdir := Ok []; getsize := Ok 0%Z;
              faster_whisper_imported := None; model_loaded := None;
              transcribed := Raise (Exception_ []) |} sample_url) =
    [Print (py "Processing: " ++ sample_url);
     Emit (progress {| message := py "Initializing download...";
                       detail := py "Setting up yt-dlp";
                       percentage := 0;
                       phase := download |});
     Call shutil_disk_usage;
     Call TemporaryDirectory] ++ rest.
Proof.
  eapply disk_query_failure_tolerated. reflexivity.
Defined.

(* ================================================================= *)
(** ** Failures of the orchestrator *)

(** X12. The recognition block is all or nothing: if any of its stages
    raises, also the lazy result after it has yielded segments, the block
    raises one exception whose message is fixed by the class of the first
    failure (an [ImportError] of any stage reads "not installed"), and no
    partial transcript is returned; otherwise it returns the assembled
    texts. *)
Theorem transcribe_audio_all_or_nothing w audio_file :
  snd (transcribe_audio w audio_file) =
  match recognition_failure w with
  | Some e => Raise (Exception_ (transcription_error_message e))
  | None => Ok (assemble (recognised_texts w))
  end.
Proof.
  unfold recognition_failure, recognised_texts, transcribe_audio,
    transcription_error_message.
  rewrite snd_try_except.
  destruct (faster_whisper_imported w) as [e|].
  { cbn [bind call may_raise snd]. destruct (exn_cls e); reflexivity. }
  rewrite snd_bind. cbn [snd call may_raise].
  rewrite snd_bind. cbn [snd emit].
  destruct (model_loaded w) as [e|].
  { cbn [bind call may_raise snd]. destruct (exn_cls e); reflexivity. }
  rewrite snd_bind. cbn [snd call may_raise].
  rewrite snd_bind. cbn [snd emit].
  destruct (transcribed w) as [[[segments failure] info]|e].
  2:{ cbn [bind call snd]. destruct (exn_cls e); reflexivity. }
  rewrite snd_bind. cbn [snd call].
  rewrite snd_bind. cbn [snd emit].
  rewrite snd_bind. unfold iterate_segments.
  rewrite snd_bind, segment_loop_returns. cbn [fst snd app].
  destruct failure as [e|].
  - cbn [snd raise]. destruct (exn_cls e); reflexivity.
  - cbn [snd ret]. rewrite snd_bind. reflexivity.
Qed.

Lemma orchestrator_raises_inv float w url e :
  snd (download_and_transcribe_with_progress float w url) = Raise e ->
  (exists n,
     e = Exception_ (py "Insufficient disk space: " ++ n
                     ++ py "MB available")) \/
  temp_dir_created w = Raise e \/
  temp_dir_removed w = Some e \/
  (exists m, e = Exception_ (py "Processing failed: " ++ m)).
Proof.
  unfold download_and_transcribe_with_progress. intros H.
  rewrite snd_bind in H. cbn [snd print] in H.
  rewrite snd_bind in H. cbn [snd emit] in H.
  rewrite snd_bind in H.
  assert (Hu : exists usage, snd (get_disk_usage w) = Ok usage).
  { unfold get_disk_usage. rewrite snd_try_except.
    destruct (disk_usage w) as [[[total used] free]|e0];
      cbn [bind call snd ret]; eauto. }
  destruct Hu as [usage Hu]. rewrite Hu in H. cbv beta iota in H.
  rewrite snd_bind in H.
  match type of H with
  | match ?r with _ => _ end = _ =>
      assert (Hcheck :
        r = Ok tt \/
        exists n, r = Raise (Exception_ (py "Insufficient disk space: " ++ n
                                         ++ py "MB available")))
  end;
  [ clear H; destruct usage as [[free_mb total_mb]|]; [|now left];
    rewrite snd_bind;
    destruct (float_truthy free_mb && Qltb free_mb 100);
    [ right; eexists; reflexivity
    | left; cbn [snd ret]; apply snd_when; reflexivity ]
  | ].
  destruct Hcheck as [Hok | [n Hraise]].
  2:{ rewrite Hraise in H. injection H as <-. left. exists n. reflexivity. }
  rewrite Hok in H.
  rewrite snd_bind in H. cbn [snd call] in H.
  destruct (temp_dir_created w) as [temp_dir|e0]; [|now right; left].
  rewrite snd_finally in H.
  destruct (temp_dir_removed w) as [e1|];
    [injection H as <-; right; right; left; reflexivity|].
  rewrite snd_try_except in H.
  match type of H with
  | match ?body with _ => _ end = _ => destruct body as [t|e0]
  end; [discriminate|].
  cbn [snd raise] in H. injection H as <-. right. right. right.
  eexists. reflexivity.
Qed.

(** X13. With console output and event emission working, every error
    message a client receives from the background task has one of five
    forms: "No transcript generated", the disk-space message, the bare
    text of the exception raised while the temporary directory was created
    or while it was removed (both calls are outside the wrapping [try]),
    or a text starting with "Processing failed: ". *)
Theorem error_event_forms float w url msg :
  In (transcription_error msg) (emitted (fst (extraction_task float w url))) ->
  msg = py "No transcript generated" \/
  (exists n, msg = py "Insufficient disk space: " ++ n ++ py "MB available") \/
  (exists e, temp_dir_created w = Raise e /\ msg = exn_str e) \/
  (exists e, temp_dir_removed w = Some e /\ msg = exn_str e) \/
  (exists m, msg = py "Processing failed: " ++ m).
Proof.
  rewrite extraction_task_trace. cbn [fst]. rewrite emitted_app.
  intros Hin. apply in_app_or in Hin as [Hin | Hin].
  - pose proof (relays_progress_emitted
                  (relays_orchestrator float w url)) as Hp.
    rewrite forallb_forall in Hp. specialize (Hp _ Hin). discriminate.
  - destruct Hin as [Hin | []].
    destruct (snd (download_and_transcribe_with_progress float w url))
      as [[|c t]|e] eqn:E.
    + injection Hin as <-. now left.
    + discriminate.
    + injection Hin as <-.
      destruct (orchestrator_raises_inv _ _ _ E)
        as [[n ->] | [Ht | [Hr | [m ->]]]].
      * right. left. exists n. reflexivity.
      * right. right. left. exists e. split; [assumption | reflexivity].
      * right. right. right. left. exists e.
        split; [assumption | reflexivity].
      * right. right. right. right. exists m. reflexivity.
Qed.

Lemma error_event_forms_witness :
  py "[Errno 39] Directory not empty" = py "No transcript generated"
  \/ (exists n, py "[Errno 39] Directory not empty"
                = py "Insufficient disk space: " ++ n ++ py "MB available")
  \/ (exists e,
        temp_dir_created (unremovable_world ["Hello"]%string) = Raise e /\
        py "[Errno 39] Directory not empty" = exn_str e)
  \/ (exists e,
        temp_dir_removed (unremovable_world ["Hello"]%string) = Some e /\
        py "[Errno 39] Directory not empty" = exn_str e)
  \/ (exists m, py "[Errno 39] Directory not empty"
                = py "Processing failed: " ++ m).
Proof.
  apply (@error_event_forms float_decimal
           (unremovable_world ["Hello"]%string) sample_url).
  vm_compute.
  repeat match goal with
         | |- _ \/ _ => first [left; reflexivity | right]
         end.
Defined.

(* ================================================================= *)
(** ** The temporary directory *)

Lemma get_disk_usage_returns w :
  exists usage, get_disk_usage w = ([Call shutil_disk_usage], Ok usage).
Proof.
  unfold get_disk_usage.
  destruct (disk_usage w) as [[[total used] free]|e]; eexists; reflexivity.
Qed.

(** X14. Once the temporary directory has been created, its removal is
    the last thing the orchestrator does, whether it returns or raises. *)
Theorem temp_dir_removed_last float w url temp_dir :
  temp_dir_created w = Ok temp_dir ->
  In (Call TemporaryDirectory)
     (fst (download_and_transcribe_with_progress float w url)) ->
  exists t,
    fst (download_and_transcribe_with_progress float w url)
    = t ++ [Call (TemporaryDirectory_cleanup temp_dir)].
Proof.
  intros Htd. unfold download_and_transcribe_with_progress.
  destruct (get_disk_usage_returns w) as [usage ->].
  rewrite fst_bind. cbn [snd fst print].
  rewrite fst_bind. cbn [snd fst emit].
  rewrite fst_bind. cbn [snd fst].
  rewrite fst_bind.
  match goal with
  | |- In _ (_ ++ _ ++ _ ++ fst ?c ++ _) -> _ =>
      assert (Hc : forall a, In a (fst c) -> exists line, a = Print line);
      [|destruct (snd c) as [[]|e]]
  end.
  - intros a. destruct usage as [[free_mb total_mb]|]; [|intros []].
    rewrite fst_bind.
    destruct (float_truthy free_mb && Qltb free_mb 100).
    + intros [].
    + cbn [snd fst ret app].
      destruct (float_truthy free_mb); [|intros []].
      intros [<- | []]. eexists. reflexivity.
  - intros _. rewrite fst_bind. cbn [snd fst call]. rewrite Htd.
    rewrite fst_finally. eexists. rewrite !app_assoc. reflexivity.
  - intros Hin. exfalso. rewrite app_nil_r in Hin.
    destruct Hin as [Hin | [Hin | [Hin | Hin]]]; try discriminate.
    destruct (Hc _ Hin) as [line Hl]. discriminate.
Qed.

Lemma temp_dir_removed_last_witness :
  exists t,
    fst (download_and_transcribe_with_progress float_decimal
           (sample_world 500000000 ["Hello"]%string) sample_url)
    = t ++ [Call (TemporaryDirectory_cleanup (py "/tmp/tmpk3v9x2aa"))].
Proof.
  apply (@temp_dir_removed_last float_decimal
           (sample_world 500000000 ["Hello"]%string) sample_url
           (py "/tmp/tmpk3v9x2aa") eq_refl).
  vm_compute. do 4 right. left. reflexivity.
Defined.

(* ================================================================= *)
(** ** The end of a successful run *)

Lemma ends_emitting_app ev t1 t2 :
  ends_emitting ev t2 -> ends_emitting ev (t1 ++ t2).
Proof.
  intros [evs E]. exists (emitted t1 ++ evs).
  now rewrite emitted_app, E, app_assoc.
Qed.

Lemma returns_after_bind {A B} ev (m : M A) (k : A -> M B) :
  (forall a, returns_after ev (k a)) -> returns_after ev (bind m k).
Proof.
  intros Hk b H. apply returns_bind_inv in H as (a & Hm & Hka).
  rewrite fst_bind, Hm. apply ends_emitting_app. now apply Hk.
Qed.

Lemma returns_after_try_except {A} ev (m : M A) h :
  returns_after ev m -> (forall e x, snd (h e) <> Ok x) ->
  returns_after ev (try_except m h).
Proof.
  intros Hm Hh b H. pose proof (returns_try_inv _ _ Hh H) as Hb.
  rewrite fst_try_except, Hb, app_nil_r. now apply Hm.
Qed.

Lemma returns_after_finally {A} ev (m : M A) c failure :
  returns_after ev m -> returns_after ev (finally m c failure).
Proof.
  intros Hm b H. apply returns_finally_inv in H as [H _].
  rewrite fst_finally.
  destruct (Hm b H) as [evs E]. exists evs.
  rewrite emitted_app, E. apply app_nil_r.
Qed.

Lemma returns_after_raise {A} ev e : returns_after ev (@raise A e).
Proof. intros b H. discriminate. Qed.

Lemma transcribe_audio_returns_after w audio_file :
  returns_after completion_progress (transcribe_audio w audio_file).
Proof.
  unfold transcribe_audio.
  apply returns_after_try_except;
    [|intros e x; destruct (exn_cls e); discriminate].
  do 4 (apply returns_after_bind; intros ?).
  apply returns_after_bind. intros [[segments failure] info].
  do 2 (apply returns_after_bind; intros ?).
  intros b H. apply returns_bind_inv in H as ([] & _ & H).
  injection H as <-. exists []. reflexivity.
Qed.

Lemma orchestrator_returns_after float w url :
  returns_after completion_progress
    (download_and_transcribe_with_progress float w url).
Proof.
  unfold download_and_transcribe_with_progress.
  do 5 (apply returns_after_bind; intros ?).
  apply returns_after_finally.
  apply returns_after_try_except; [|intros e x; discriminate].
  do 4 (apply returns_after_bind; intros ?).
  match goal with
  | |- returns_after _ (match ?x with _ => _ end) => destruct x
  end; [apply returns_after_raise|].
  do 4 (apply returns_after_bind; intros ?).
  apply transcribe_audio_returns_after.
Qed.

(** X15. A request that yields a transcript ends with two events: the
    final progress event, at 100 percent of the transcribe phase and
    reporting the number of characters of that transcript, and then the
    completion event carrying the same transcript. *)
Theorem successful_request_ends float w url c t :
  snd (download_and_transcribe_with_progress float w url) = Ok (c :: t) ->
  exists evs,
    emitted (fst (extraction_task float w url))
    = evs ++ [completion_progress (c :: t); transcription_complete (c :: t)].
Proof.
  intros Hr.
  destruct (orchestrator_returns_after float w url Hr) as [evs E].
  exists evs. rewrite extraction_task_trace, Hr. cbn [fst].
  rewrite emitted_app, E, <- app_assoc. reflexivity.
Qed.

Lemma successful_request_ends_witness :
  exists evs,
    emitted (fst (extraction_task float_decimal
                    (sample_world 500000000 ["Hello"; " world"]%string)
                    sample_url))
    = evs ++ [completion_progress (py "Hello  world");
              transcription_complete (py "Hello  world")].
Proof.
  apply (@successful_request_ends float_decimal
           (sample_world 500000000 ["Hello"; " world"]%string) sample_url
           (ord "H") (py "ello  world")).
  vm_compute. reflexivity.
Defined.

(* ================================================================= *)
(** ** Transcribe-phase percentages *)

Lemma step_fraction i :
  (0 <= i)%Z ->
  (inject_Z (i * 15) / inject_Z (i + 1) == (i * 15) # Z.to_pos (i + 1))%Q.
Proof.
  intros Hi. rewrite Qmake_Qdiv, Z2Pos.id by lia. reflexivity.
Qed.

Lemma segment_percent_bounds i :
  (0 <= i)%Z -> (80 <= segment_percent i)%Q /\ (segment_percent i < 95)%Q.
Proof.
  intros Hi. unfold segment_percent. rewrite (step_fraction Hi).
  remember (Z.to_pos (i + 1)) as p eqn:Ep.
  assert (Hp : Z.pos p = (i + 1)%Z) by (subst p; apply Z2Pos.id; lia).
  unfold Qle, Qlt, Qplus. cbn [Qnum Qden].
  rewrite !Pos2Z.inj_mul, Hp. lia.
Qed.

Lemma segment_percent_mono i j :
  (0 <= i <= j)%Z -> (segment_percent i <= segment_percent j)%Q.
Proof.
  intros [Hi Hij]. unfold segment_percent.
  rewrite (step_fraction Hi), (@step_fraction j) by lia.
  apply Qplus_le_r. unfold Qle. cbn [Qnum Qden].
  rewrite !Z2Pos.id by lia. nia.
Qed.

Lemma indices_sorted p n : forall a,
  StronglySorted Z.le (filter p (map Z.of_nat (seq a n))) /\
  Forall (fun x => (Z.of_nat a <= x)%Z) (filter p (map Z.of_nat (seq a n))).
Proof.
  induction n as [|n IH]; intros a; simpl.
  - split; constructor.
  - destruct (IH (S a)) as [Hs Hb].
    assert (Hb' : Forall (fun x => (Z.of_nat a <= x)%Z)
                    (filter p (map Z.of_nat (seq (S a) n))))
      by (revert Hb; apply Forall_impl; intros; lia).
    destruct (p (Z.of_nat a)); [|auto].
    split; constructor; auto. lia.
Qed.

Lemma segment_percents_climb l :
  StronglySorted Z.le l -> Forall (fun x => (0 <= x)%Z) l ->
  climbs 80 95 (map segment_percent l).
Proof.
  induction 1 as [|i l _ IH Hi]; intros Hpos; simpl.
  - split; constructor.
  - inversion Hpos as [|? ? H0 Hpos']; subst.
    destruct (IH Hpos') as [Hs Hb].
    destruct (segment_percent_bounds H0) as [Hlo Hhi].
    split; constructor; auto.
    + apply Forall_map. rewrite Forall_forall in Hi, Hpos'.
      apply Forall_forall. intros j Hj.
      apply segment_percent_mono. split; [assumption | now apply Hi].
    + split; [assumption | now apply Qlt_le_weak].
Qed.

Lemma transcribe_percentages_app e1 e2 :
  transcribe_percentages (e1 ++ e2) =
  transcribe_percentages e1 ++ transcribe_percentages e2.
Proof. unfold transcribe_percentages. apply flat_map_app. Qed.

Lemma segment_events_percentages l :
  transcribe_percentages
    (emitted (map (fun i => Emit (segment_progress i (i + 1))) l))
  = map segment_percent l.
Proof.
  induction l as [|i l IH]; [reflexivity|].
  simpl. now rewrite <- IH.
Qed.

Lemma segment_loop_percentages segments :
  transcribe_percentages (emitted (fst (segment_loop 0 [] segments)))
  = map segment_percent (filter every_10th (indices (length segments))).
Proof.
  unfold indices.
  replace (fst (segment_loop 0 [] segments))
    with (map (fun i => Emit (segment_progress i (i + 1)))
            (filter every_10th (map Z.of_nat (seq 0 (length segments)))))
    by (symmetry; exact (segment_loop_trace segments [])).
  apply segment_events_percentages.
Qed.

(** X16. While the segments are assembled the reported percentage starts
    at 80, never decreases from one report to the next and stays below 95,
    however many segments there are; only the completion event reaches
    100. *)
Theorem segment_loop_percentages_climb segments :
  StronglySorted Qle
    (transcribe_percentages (emitted (fst (segment_loop 0 [] segments)))) /\
  Forall (fun x => 80 <= x /\ x < 95)%Q
    (transcribe_percentages (emitted (fst (segment_loop 0 [] segments)))).
Proof.
  rewrite segment_loop_percentages. unfold indices.
  destruct (indices_sorted every_10th (length segments) 0) as [Hs Hb].
  split.
  - now apply segment_percents_climb.
  - apply Forall_map. revert Hb. apply Forall_impl.
    intros i Hi. now apply segment_percent_bounds.
Qed.

Lemma climbs_app lo mid hi l1 l2 :
  (lo <= mid)%Q -> (mid <= hi)%Q ->
  climbs lo mid l1 -> climbs mid hi l2 -> climbs lo hi (l1 ++ l2).
Proof.
  intros Hlm Hmh [Hs1 Hb1] [Hs2 Hb2]. split.
  - induction Hs1 as [|x l1 _ IH Hx]; simpl; [assumption|].
    inversion Hb1 as [|? ? [_ Hxm] Hb1']; subst.
    constructor; [now apply IH|].
    apply Forall_app. split; [assumption|].
    revert Hb2. apply Forall_impl. intros y [Hy _].
    now apply Qle_trans with mid.
  - apply Forall_app. split.
    + revert Hb1. apply Forall_impl. intros x [H1 H2].
      split; [assumption | now apply Qle_trans with mid].
    + revert Hb2. apply Forall_impl. intros x [H1 H2].
      split; [now apply Qle_trans with mid | assumption].
Qed.

Lemma climbs_nil lo hi : climbs lo hi [].
Proof. split; constructor. Qed.

Lemma silent_climbs {A} lo hi (m : M A) :
  transcribe_silent m -> phase_climbs lo hi m.
Proof. unfold transcribe_silent, phase_climbs. intros ->. apply climbs_nil. Qed.

Lemma silent_bind {A B} (m : M A) (k : A -> M B) :
  transcribe_silent m -> (forall a, transcribe_silent (k a)) ->
  transcribe_silent (bind m k).
Proof.
  unfold transcribe_silent. intros Hm Hk.
  rewrite fst_bind, emitted_app, transcribe_percentages_app, Hm.
  destruct (snd m); [apply Hk | reflexivity].
Qed.

Lemma silent_try_except {A} (m : M A) h :
  transcribe_silent m -> (forall e, transcribe_silent (h e)) ->
  transcribe_silent (try_except m h).
Proof.
  unfold transcribe_silent. intros Hm Hh.
  rewrite fst_try_except, emitted_app, transcribe_percentages_app, Hm.
  destruct (snd m); [reflexivity | apply Hh].
Qed.

Lemma silent_download_events {A} (m : M A) :
  Forall download_event (fst m) -> transcribe_silent m.
Proof.
  unfold transcribe_silent. induction 1 as [|a t (p & -> & Hp) _ IH].
  - reflexivity.
  - simpl. destruct p as [msg det pct ph]. simpl in Hp. subst ph. exact IH.
Qed.

Lemma silent_when b m : transcribe_silent m -> transcribe_silent (when b m).
Proof. destruct b; [auto | reflexivity]. Qed.

Lemma climbs_bind {A B} lo mid hi (m : M A) (k : A -> M B) :
  (lo <= mid)%Q -> (mid <= hi)%Q ->
  phase_climbs lo mid m -> (forall a, phase_climbs mid hi (k a)) ->
  phase_climbs lo hi (bind m k).
Proof.
  unfold phase_climbs. intros Hlm Hmh Hm Hk.
  rewrite fst_bind, emitted_app, transcribe_percentages_app.
  apply climbs_app with mid; auto.
  destruct (snd m); [apply Hk | apply climbs_nil].
Qed.

Lemma climbs_after_silent {A B} lo hi (m : M A) (k : A -> M B) :
  transcribe_silent m -> (forall a, phase_climbs lo hi (k a)) ->
  phase_climbs lo hi (bind m k).
Proof.
  unfold phase_climbs, transcribe_silent. intros Hm Hk.
  rewrite fst_bind, emitted_app, transcribe_percentages_app, Hm.
  destruct (snd m); [apply Hk | apply climbs_nil].
Qed.

Lemma climbs_then_silent {A B} lo hi (m : M A) (k : A -> M B) :
  phase_climbs lo hi m -> (forall a, transcribe_silent (k a)) ->
  phase_climbs lo hi (bind m k).
Proof.
  unfold phase_climbs, transcribe_silent. intros Hm Hk.
  rewrite fst_bind, emitted_app, transcribe_percentages_app.
  destruct (snd m); [rewrite Hk|]; now rewrite app_nil_r.
Qed.

Lemma climbs_after_emit {B} lo hi x msg det (k : unit -> M B) :
  (lo <= x)%Q -> (x <= hi)%Q ->
  phase_climbs x hi (k tt) ->
  phase_climbs lo hi
    (bind (emit (progress {| message := msg; detail := det;
                             percentage := x; phase := transcribe |})) k).
Proof.
  intros Hlx Hxh Hk.
  apply climbs_bind with x; auto.
  - split; repeat constructor; auto. apply Qle_refl.
  - intros []. exact Hk.
Qed.

Lemma climbs_try_except {A} lo hi (m : M A) h :
  phase_climbs lo hi m -> (forall e, transcribe_silent (h e)) ->
  phase_climbs lo hi (try_except m h).
Proof.
  unfold phase_climbs, transcribe_silent. intros Hm Hh.
  rewrite fst_try_except, emitted_app, transcribe_percentages_app.
  destruct (snd m); [|rewrite Hh]; now rewrite app_nil_r.
Qed.

Lemma climbs_finally {A} lo hi (m : M A) c failure :
  phase_climbs lo hi m -> phase_climbs lo hi (finally m c failure).
Proof.
  unfold phase_climbs. intros Hm.
  rewrite fst_finally, emitted_app, transcribe_percentages_app.
  now rewrite app_nil_r.
Qed.

(** Computations without transcribe-phase progress, step by step. *)
Ltac silent_step :=
  match goal with
  | |- transcribe_silent (bind _ _) => apply silent_bind; [|intros]
  | |- transcribe_silent (try_except _ _) =>
      apply silent_try_except; [|intros]
  | |- transcribe_silent (when _ _) => apply silent_when
  | |- transcribe_silent (match ?x with _ => _ end) => destruct x
  | |- transcribe_silent _ => reflexivity
  end.

Ltac qconst := unfold Qle; simpl; lia.

Lemma transcribe_audio_climbs w audio_file :
  phase_climbs 0 100 (transcribe_audio w audio_file).
Proof.
  unfold transcribe_audio.
  apply climbs_try_except; [|intros e; destruct (exn_cls e); reflexivity].
  apply climbs_after_silent; [reflexivity | intros _].
  apply climbs_after_emit; [qconst | qconst |].
  apply climbs_after_silent; [reflexivity | intros _].
  apply climbs_after_emit; [qconst | qconst |].
  apply climbs_after_silent; [reflexivity | intros [[segments failure] info]].
  apply climbs_after_emit; [qconst | qconst |].
  apply climbs_bind with 95%Q; [qconst | qconst | |].
  - unfold iterate_segments. apply climbs_then_silent.
    + unfold phase_climbs. cbn [fst].
      rewrite segment_loop_percentages. unfold indices.
      destruct (indices_sorted every_10th (length segments) 0) as [Hs Hb].
      now apply segment_percents_climb.
    + intros parts. destruct failure; reflexivity.
  - intros parts. apply climbs_after_emit; [qconst | qconst |].
    apply silent_climbs. reflexivity.
Qed.

Lemma run_download_silent float w hook url :
  transcribe_silent (run_download float w hook url).
Proof.
  unfold run_download.
  apply silent_bind; [reflexivity | intros _].
  apply silent_bind.
  - apply silent_download_events. apply run_hook_shape.
  - intros _. destruct (download_finished w); reflexivity.
Qed.

(** X17. In every run, whatever the world answers, the percentages of
    the transcribe-phase progress events never decrease and lie between 0
    and 100. *)
Theorem transcribe_percentages_climb float w url :
  StronglySorted Qle
    (transcribe_percentages
       (emitted (fst (download_and_transcribe_with_progress float w url)))) /\
  Forall (fun x => 0 <= x /\ x <= 100)%Q
    (transcribe_percentages
       (emitted (fst (download_and_transcribe_with_progress float w url)))).
Proof.
  change (phase_climbs 0 100 (download_and_transcribe_with_progress float w url)).
  unfold download_and_transcribe_with_progress.
  apply climbs_after_silent; [reflexivity | intros _].
  apply climbs_after_silent; [reflexivity | intros _].
  apply climbs_after_silent.
  { destruct (get_disk_usage_returns w) as [usage ->]. reflexivity. }
  intros usage.
  apply climbs_after_silent; [repeat silent_step | intros _].
  apply climbs_after_silent; [reflexivity | intros temp_dir].
  apply climbs_finally.
  apply climbs_try_except; [|intros e; reflexivity].
  apply climbs_after_silent; [reflexivity | intros _].
  apply climbs_after_silent; [reflexivity | intros _].
  apply climbs_after_silent; [apply run_download_silent | intros _].
  apply climbs_after_silent; [reflexivity | intros names].
  destruct (filter (startswith (py "audio.")) names) as [|file0 files].
  { apply silent_climbs. reflexivity. }
  apply climbs_after_silent; [reflexivity | intros file_size].
  apply climbs_after_silent; [reflexivity | intros _].
  apply climbs_after_silent; [reflexivity | intros _].
  apply climbs_after_emit; [qconst | qconst |].
  apply transcribe_audio_climbs.
Qed.

(* ================================================================= *)
(** ** More on the gateway *)

(** X18. A start message whose URL validates emits nothing synchronously
    and starts exactly one background thread, which is given the URL as
    received: the extracted identifier is used for validation only. *)
Theorem handle_extraction_starts_thread members url id :
  lookup (py "url") members = Some (JString url) ->
  extract_video_id url = Some id ->
  handle_extraction (JObject members) = ([Call (Thread_start url)], Ok tt).
Proof.
  intros Hl H.
  rewrite (@handle_extraction_on (JString url) members)
    by (rewrite Hl; reflexivity).
  destruct url as [|c url]; [discriminate|].
  cbn [truthy negb]. rewrite H.
  apply search_Some in H as (pre & m & post & _ & _ & [Hlen _] & _).
  destruct id; [discriminate | reflexivity].
Qed.

Lemma handle_extraction_starts_thread_witness :
  handle_extraction (JObject [(py "url", JString sample_url)])
  = ([Call (Thread_start sample_url)], Ok tt).
Proof.
  apply (@handle_extraction_starts_thread
           [(py "url", JString sample_url)] sample_url (py "dQw4w9WgXcQ")).
  - reflexivity.
  - vm_compute. reflexivity.
Defined.

(** X19. With a disk report of more than zero but less than
    100 * 1024 * 1024 free bytes, the client of a request sees exactly two
    events: the initial progress event and the disk-space error with the
    free space in whole megabytes. *)
Theorem insufficient_disk_space_events float w url total used free :
  disk_usage w = Ok (total, used, free) ->
  (0 < free < 100 * (1024 * 1024))%Z ->
  emitted (fst (extraction_task float w url)) =
  [progress {| message := py "Initializing download...";
               detail := py "Setting up yt-dlp";
               percentage := 0;
               phase := download |};
   transcription_error
     (py "Insufficient disk space: "
      ++ format_fixed 0 (inject_Z free / inject_Z (1024 * 1024))
      ++ py "MB available")].
Proof.
  intros Hd Hfree. rewrite extraction_task_trace.
  rewrite (low_disk_space_fails_before_download float w url Hd Hfree).
  reflexivity.
Qed.

Lemma insufficient_disk_space_events_witness :
  emitted (fst (extraction_task float_decimal
                  (sample_world 52428800 ["Hello"]%string) sample_url)) =
  [progress {| message := py "Initializing download...";
               detail := py "Setting up yt-dlp";
               percentage := 0;
               phase := download |};
   transcription_error
     (py "Insufficient disk space: "
      ++ format_fixed 0 (inject_Z 52428800 / inject_Z (1024 * 1024))
      ++ py "MB available")].
Proof.
  apply (@insufficient_disk_space_events float_decimal
           (sample_world 52428800 ["Hello"]%string) sample_url
           250000000000%Z (250000000000 - 52428800)%Z 52428800%Z eq_refl).
  lia.
Defined.

(* ================================================================= *)
(** ** Start-up *)

Lemma str_eqb_eq a b : str_eqb a b = true <-> a = b.
Proof.
  unfold str_eqb. destruct (list_eq_dec N.eq_dec a b); split; auto.
  discriminate.
Qed.

(** X20. The browser thread is started exactly when the configured host
    is the text 127.0.0.1 (the default when HOST is unset); it is then
    started once, with that host and the configured port, and opens
    http://127.0.0.1:port after its pause. *)
Theorem browser_opened_iff_loopback int environ outcome port :
  main_port int environ = Ok port ->
  ((exists h p, In (browser_thread_start h p)
                   (fst (main int environ outcome)))
   <-> main_host environ = py "127.0.0.1") /\
  (forall h p,
     In (browser_thread_start h p) (fst (main int environ outcome)) ->
     p = port /\
     open_browser h p =
       [time_sleep 1.5;
        webbrowser_open (py "http://127.0.0.1:" ++ str_of_Z port)]).
Proof.
  intros Hport. unfold main. rewrite Hport. cbn [fst].
  destruct (str_eqb (main_host environ) (py "127.0.0.1")) eqn:E.
  - apply str_eqb_eq in E. rewrite E. split.
    + split; [auto|]. intros _. exists (py "127.0.0.1"), port.
      cbn. do 6 right. left. reflexivity.
    + intros h p Hin. cbn in Hin.
      destruct Hin as [H|[H|[H|[H|[H|[H|[H|[H|Hin]]]]]]]];
        try discriminate.
      * injection H as <- <-. split; reflexivity.
      * destruct outcome; cbn in Hin;
          repeat (destruct Hin as [Hin|Hin]; try discriminate);
          destruct Hin.
  - assert (Hno : forall h p,
              ~ In (browser_thread_start h p)
                  (fst (main int environ outcome))).
    { intros h p. unfold main. rewrite Hport, E. cbn.
      intros Hin.
      destruct Hin as [H|[H|[H|[H|[H|[H|Hin]]]]]]; try discriminate.
      destruct outcome; cbn in Hin;
        repeat (destruct Hin as [Hin|Hin]; try discriminate);
        destruct Hin. }
    unfold main in Hno. rewrite Hport, E in Hno. cbn [fst] in Hno.
    split.
    + split.
      * intros (h & p & Hin). destruct (Hno h p Hin).
      * intros Heq. apply str_eqb_eq in Heq. congruence.
    + intros h p Hin. destruct (Hno h p Hin).
Qed.

Lemma browser_opened_iff_loopback_witness :
  exists h p, In (browser_thread_start h p)
                 (fst (main int_decimal local_environ run_returns)).
Proof.
  apply (proj2 (proj1 (@browser_opened_iff_loopback int_decimal
                         local_environ run_returns 5000%Z eq_refl))).
  reflexivity.
Defined.

(** X21. The server is run on the configured port and on one of two
    addresses: 127.0.0.1 when the configured host is that very text, and
    0.0.0.0 for every other value of HOST, whatever it names. *)
Theorem server_bind_address int environ outcome port h p :
  main_port int environ = Ok port ->
  In (socketio_run h p) (fst (main int environ outcome)) ->
  p = port /\
  ((main_host environ = py "127.0.0.1" /\ h = py "127.0.0.1") \/
   (main_host environ <> py "127.0.0.1" /\ h = py "0.0.0.0")).
Proof.
  intros Hport. unfold main, bind_host. rewrite Hport. cbn [fst].
  destruct (str_eqb (main_host environ) (py "127.0.0.1")) eqn:E; cbn.
  - apply str_eqb_eq in E.
    intros Hin.
    destruct Hin as [H|[H|[H|[H|[H|[H|[H|[H|Hin]]]]]]]]; try discriminate.
    + injection H as <- <-. auto.
    + destruct outcome; cbn in Hin;
        repeat (destruct Hin as [Hin|Hin]; try discriminate);
        destruct Hin.
  - assert (Hne : main_host environ <> py "127.0.0.1").
    { intros Heq. apply str_eqb_eq in Heq. congruence. }
    intros Hin.
    destruct Hin as [H|[H|[H|[H|[H|[H|Hin]]]]]]; try discriminate.
    + injection H as <- <-. auto.
    + destruct outcome; cbn in Hin;
        repeat (destruct Hin as [Hin|Hin]; try discriminate);
        destruct Hin.
Qed.

Lemma server_bind_address_witness :
  8080%Z = 8080%Z /\
  ((main_host cloud_environ = py "127.0.0.1" /\ py "0.0.0.0" = py "127.0.0.1")
   \/ (main_host cloud_environ <> py "127.0.0.1"
       /\ py "0.0.0.0" = py "0.0.0.0")).
Proof.
  apply (@server_bind_address int_decimal cloud_environ run_returns
           8080%Z (py "0.0.0.0") 8080%Z eq_refl).
  cbn. do 5 right. left. reflexivity.
Defined.

(** X22. When PORT is set to a text [int] rejects, [main] raises that
    error before it prints anything or runs the server. *)
Theorem invalid_port_aborts int environ outcome s e :
  environ "PORT"%string = Some s -> int s = Raise e ->
  main int environ outcome = ([], Raise e).
Proof.
  intros Hs He. unfold main, main_port. now rewrite Hs, He.
Qed.

Lemma invalid_port_aborts_witness :
  exists e,
    main int_decimal
      (fun key => if String.eqb key "PORT" then Some (py "http") else None)
      run_returns = ([], Raise e).
Proof.
  eexists.
  apply (@invalid_port_aborts int_decimal
           (fun key => if String.eqb key "PORT" then Some (py "http") else None)
           run_returns (py "http")); reflexivity.
Defined.

(** X23. Once the port is read, [main] runs the server once and what it
    does next depends on how the server ends: it returns normally when the
    server returns, when it is interrupted from the keyboard (last output:
    a line feed and "Application stopped.") and when it raises an
    [Exception] (last output: "Error: " and its text); any other
    [BaseException], such as [SystemExit], is not caught and leaves [main]
    without further output. *)
Theorem main_after_server int environ outcome port :
  main_port int environ = Ok port ->
  snd (main int environ outcome) =
    match outcome with
    | run_exits e => Raise e
    | _ => Ok tt
    end /\
  exists before,
    fst (main int environ outcome) =
    before
    ++ [socketio_run (bind_host (main_host environ)) port]
    ++ match outcome with
       | run_returns => []
       | run_KeyboardInterrupt => [Printed (10%N :: py "Application stopped.")]
       | run_raises e => [Printed (py "Error: " ++ exn_str e)]
       | run_exits _ => []
       end.
Proof.
  intros Hport. unfold main. rewrite Hport. cbn [fst snd].
  split; [reflexivity|].
  eexists. rewrite app_assoc. reflexivity.
Qed.

Lemma main_after_server_witness :
  snd (main int_decimal cloud_environ run_KeyboardInterrupt) = Ok tt /\
  exists before,
    fst (main int_decimal cloud_environ run_KeyboardInterrupt) =
    before
    ++ [socketio_run (bind_host (main_host cloud_environ)) 8080]
    ++ [Printed (10%N :: py "Application stopped.")].
Proof.
  apply (@main_after_server int_decimal cloud_environ
           run_KeyboardInterrupt 8080%Z eq_refl).
Defined.

(* ================================================================= *)
(** ** The order of the phases *)

Lemma download_silent_bind {A B} (m : M A) (k : A -> M B) :
  download_silent m -> (forall a, download_silent (k a)) ->
  download_silent (bind m k).
Proof.
  unfold download_silent. intros Hm Hk.
  rewrite fst_bind, emitted_app, download_percentages_app, Hm.
  destruct (snd m); [apply Hk | reflexivity].
Qed.

Lemma download_silent_try_except {A} (m : M A) h :
  download_silent m -> (forall e, download_silent (h e)) ->
  download_silent (try_except m h).
Proof.
  unfold download_silent. intros Hm Hh.
  rewrite fst_try_except, emitted_app, download_percentages_app, Hm.
  destruct (snd m); [reflexivity | apply Hh].
Qed.

Lemma segment_events_download_silent l :
  download_percentages
    (emitted (map (fun i => Emit (segment_progress i (i + 1))) l)) = [].
Proof. induction l as [|i l IH]; [reflexivity | exact IH]. Qed.

Lemma transcribe_audio_download_silent w audio_file :
  download_silent (transcribe_audio w audio_file).
Proof.
  unfold transcribe_audio.
  apply download_silent_try_except;
    [|intros e; destruct (exn_cls e); reflexivity].
  do 4 (apply download_silent_bind; [reflexivity | intros ?]).
  apply download_silent_bind; [reflexivity | intros [[segments failure] info]].
  apply download_silent_bind; [reflexivity | intros _].
  apply download_silent_bind.
  - unfold iterate_segments. apply download_silent_bind.
    + unfold download_silent. cbn [fst].
      replace (fst (segment_loop 0 [] segments))
        with (map (fun i => Emit (segment_progress i (i + 1)))
                (filter every_10th
                   (map Z.of_nat (seq 0 (length segments)))))
        by (symmetry; exact (segment_loop_trace segments [])).
      apply segment_events_download_silent.
    + intros parts. destruct failure; reflexivity.
  - intros parts. apply download_silent_bind; [reflexivity | intros _].
    reflexivity.
Qed.

Lemma ordered_after_silent {A B} (m : M A) (k : A -> M B) :
  transcribe_silent m -> (forall a, phases_ordered (k a)) ->
  phases_ordered (bind m k).
Proof.
  unfold transcribe_silent. intros Hm Hk. unfold phases_ordered.
  rewrite fst_bind. destruct (snd m) as [a|e].
  - destruct (Hk a) as (t1 & t2 & -> & H1 & H2).
    exists (fst m ++ t1), t2. rewrite app_assoc. split; [reflexivity|].
    split; [|assumption].
    now rewrite emitted_app, transcribe_percentages_app, Hm, H1.
  - exists (fst m), []. rewrite app_nil_r. auto.
Qed.

Lemma ordered_download_silent {A} (m : M A) :
  download_silent m -> phases_ordered m.
Proof. intros H. exists [], (fst m). auto. Qed.

Lemma ordered_transcribe_silent {A} (m : M A) :
  transcribe_silent m -> phases_ordered m.
Proof. intros H. exists (fst m), []. rewrite app_nil_r. auto. Qed.

Lemma ordered_try_except {A} (m : M A) h :
  phases_ordered m -> (forall e, fst (h e) = []) ->
  phases_ordered (try_except m h).
Proof.
  intros Hm Hh. unfold phases_ordered. rewrite fst_try_except.
  destruct (snd m); [|rewrite Hh]; now rewrite app_nil_r.
Qed.

Lemma ordered_finally {A} (m : M A) c failure :
  phases_ordered m -> phases_ordered (finally m c failure).
Proof.
  intros (t1 & t2 & E & H1 & H2). exists t1, (t2 ++ [Call c]).
  rewrite fst_finally, E, app_assoc. split; [reflexivity|].
  split; [assumption|].
  rewrite emitted_app, download_percentages_app, H2. reflexivity.
Qed.

(** X24. In every run the phases do not interleave: the trace splits
    into a part without transcribe-phase progress followed by a part
    without download-phase progress, so no download-phase event comes
    after a transcribe-phase one. *)
Theorem phases_do_not_interleave float w url :
  exists t1 t2,
    fst (download_and_transcribe_with_progress float w url) = t1 ++ t2 /\
    transcribe_percentages (emitted t1) = [] /\
    download_percentages (emitted t2) = [].
Proof.
  change (phases_ordered (download_and_transcribe_with_progress float w url)).
  unfold download_and_transcribe_with_progress.
  apply ordered_after_silent; [reflexivity | intros _].
  apply ordered_after_silent; [reflexivity | intros _].
  apply ordered_after_silent.
  { destruct (get_disk_usage_returns w) as [usage ->]. reflexivity. }
  intros usage.
  apply ordered_after_silent; [repeat silent_step | intros _].
  apply ordered_after_silent; [reflexivity | intros temp_dir].
  apply ordered_finally.
  apply ordered_try_except; [|intros e; reflexivity].
  apply ordered_after_silent; [reflexivity | intros _].
  apply ordered_after_silent; [reflexivity | intros _].
  apply ordered_after_silent; [apply run_download_silent | intros _].
  apply ordered_after_silent; [reflexivity | intros names].
  destruct (filter (startswith (py "audio.")) names) as [|file0 files].
  { apply ordered_transcribe_silent. reflexivity. }
  apply ordered_after_silent; [reflexivity | intros file_size].
  apply ordered_after_silent; [reflexivity | intros _].
  apply ordered_after_silent; [reflexivity | intros _].
  apply ordered_download_silent.
  apply download_silent_bind; [reflexivity | intros _].
  apply transcribe_audio_download_silent.
Qed.

(* ================================================================= *)
(** ** The audio file *)

Lemma in_fst_bind_inv {A B} (m : M A) (k : A -> M B) a :
  In a (fst (bind m k)) ->
  In a (fst m) \/ exists x, snd m = Ok x /\ In a (fst (k x)).
Proof.
  rewrite fst_bind. intros H. apply in_app_or in H as [H|H]; [now left|].
  destruct (snd m) as [x|e]; [right; eauto | destruct H].
Qed.

Lemma run_download_no_transcribe float w hook url f :
  ~ In (Call (model_transcribe f)) (fst (run_download float w hook url)).
Proof.
  unfold run_download. intros H.
  apply in_fst_bind_inv in H as [[H|[]] | (_ & _ & H)]; [discriminate|].
  apply in_fst_bind_inv in H as [H | (_ & _ & H)].
  - destruct (run_hook_shape float (download_notifications w) hook)
      as [Hall _].
    rewrite Forall_forall in Hall.
    destruct (Hall _ H) as (p & Hp & _). discriminate.
  - destruct (download_finished w); destruct H.
Qed.

(** X25. The recogniser is only ever given one file: the first name of
    the directory listing that starts with [audio.], joined to the
    temporary directory. *)
Theorem transcribed_file_is_first_audio float w url f :
  In (Call (model_transcribe f))
     (fst (download_and_transcribe_with_progress float w url)) ->
  exists temp_dir names file0 others,
    temp_dir_created w = Ok temp_dir /\
    listdir w = Ok names /\
    filter (startswith (py "audio.")) names = file0 :: others /\
    f = path_join temp_dir file0.
Proof.
  unfold download_and_transcribe_with_progress. intros H.
  apply in_fst_bind_inv in H as [[H|[]] | (_ & _ & H)]; [discriminate|].
  apply in_fst_bind_inv in H as [[H|[]] | (_ & _ & H)]; [discriminate|].
  apply in_fst_bind_inv in H as [H | (usage & _ & H)].
  { destruct (get_disk_usage_returns w) as [usage E]. rewrite E in H.
    destruct H as [H|[]]. discriminate. }
  apply in_fst_bind_inv in H as [H | (_ & _ & H)].
  { destruct usage as [[free_mb total_mb]|]; [|destruct H].
    apply in_fst_bind_inv in H as [H | (_ & _ & H)].
    - destruct (float_truthy free_mb && Qltb free_mb 100); destruct H.
    - destruct (float_truthy free_mb); [|destruct H].
      destruct H as [H|[]]. discriminate. }
  apply in_fst_bind_inv in H as [[H|[]] | (temp_dir & Htd & H)];
    [discriminate|].
  cbn [snd call] in Htd.
  rewrite fst_finally in H. apply in_app_or in H as [H | [H|[]]];
    [|discriminate].
  rewrite fst_try_except in H. apply in_app_or in H as [H | H].
  2:{ match type of H with
      | In _ match ?r with _ => _ end => destruct r; destruct H
      end. }
  apply in_fst_bind_inv in H as [[H|[]] | (_ & _ & H)]; [discriminate|].
  apply in_fst_bind_inv in H as [[H|[]] | (_ & _ & H)]; [discriminate|].
  apply in_fst_bind_inv in H as [H | (_ & _ & H)].
  { destruct (run_download_no_transcribe _ _ _ _ _ H). }
  apply in_fst_bind_inv in H as [[H|[]] | (names & Hn & H)]; [discriminate|].
  cbn [snd call] in Hn.
  destruct (filter (startswith (py "audio.")) names) as [|file0 others] eqn:Ef;
    [destruct H|].
  apply in_fst_bind_inv in H as [[H|[]] | (file_size & _ & H)];
    [discriminate|].
  apply in_fst_bind_inv in H as [[H|[]] | (_ & _ & H)]; [discriminate|].
  apply in_fst_bind_inv in H as [[H|[]] | (_ & _ & H)]; [discriminate|].
  apply in_fst_bind_inv in H as [[H|[]] | (_ & _ & H)]; [discriminate|].
  exists temp_dir, names, file0, others.
  split; [assumption|]. split; [assumption|]. split; [assumption|].
  unfold transcribe_audio in H. rewrite fst_try_except in H.
  apply in_app_or in H as [H | H].
  2:{ match type of H with
      | In _ match ?r with _ => _ end =>
          destruct r as [?|e]; [destruct H | destruct (exn_cls e); destruct H]
      end. }
  apply in_fst_bind_inv in H as [[H|[]] | (_ & _ & H)]; [discriminate|].
  apply in_fst_bind_inv in H as [[H|[]] | (_ & _ & H)]; [discriminate|].
  apply in_fst_bind_inv in H as [[H|[]] | (_ & _ & H)]; [discriminate|].
  apply in_fst_bind_inv in H as [[H|[]] | (_ & _ & H)]; [discriminate|].
  apply in_fst_bind_inv in H as [[H|[]] | ([[segments failure] info] & _ & H)].
  - injection H as H. symmetry. exact H.
  - exfalso.
    apply in_fst_bind_inv in H as [[H|[]] | (_ & _ & H)]; [discriminate|].
    apply in_fst_bind_inv in H as [H | (parts & _ & H)].
    + unfold iterate_segments in H.
      apply in_fst_bind_inv in H as [H | (parts & _ & H)].
      * cbn [fst] in H.
        replace (fst (segment_loop 0 [] segments))
          with (map (fun i => Emit (segment_progress i (i + 1)))
                  (filter every_10th
                     (map Z.of_nat (seq 0 (length segments))))) in H
          by (symmetry; exact (segment_loop_trace segments [])).
        apply in_map_iff in H as (i & Hi & _). discriminate.
      * cbn [snd] in H. destruct failure; destruct H.
    + apply in_fst_bind_inv in H as [[H|[]] | (_ & _ & [])].
      discriminate.
Qed.

Lemma transcribed_file_is_first_audio_witness :
  exists temp_dir names file0 others,
    temp_dir_created (sample_world 500000000 ["Hello"]%string)
      = Ok temp_dir /\
    listdir (sample_world 500000000 ["Hello"]%string) = Ok names /\
    filter (startswith (py "audio.")) names = file0 :: others /\
    py "/tmp/tmpk3v9x2aa/audio.webm" = path_join temp_dir file0.
Proof.
  apply (@transcribed_file_is_first_audio float_decimal
           (sample_world 500000000 ["Hello"]%string) sample_url
           (py "/tmp/tmpk3v9x2aa/audio.webm")).
  vm_compute.
  repeat match goal with
         | |- _ \/ _ => first [left; reflexivity | right]
         end.
Defined.

(* ================================================================= *)
(** ** Segment progress in a run *)

Lemma transcribe_audio_trace w audio_file segments failure info :
  faster_whisper_imported w = None ->
  model_loaded w = None ->
  transcribed w = Ok ((segments, failure), info) ->
  fst (transcribe_audio w audio_file) =
  [Call import_faster_whisper;
   Emit (progress {| message := py "Loading Whisper model...";
                     detail := py "Initializing base model";
                     percentage := 10;
                     phase := transcribe |});
   Call WhisperModel;
   Emit (progress {| message := py "Transcribing audio...";
                     detail := py "Processing speech recognition";
                     percentage := 30;
                     phase := transcribe |});
   Call (model_transcribe audio_file);
   Emit (language_progress info)]
  ++ segment_events (length segments)
  ++ match failure with
     | None => [Emit (completion_progress (assemble (map text segments)))]
     | Some _ => []
     end.
Proof.
  intros Hi Hm Ht. unfold transcribe_audio, iterate_segments.
  rewrite Hi, Hm, Ht.
  assert (Hloop : segment_loop 0 [] segments
                  = (segment_events (length segments),
                     Ok (map text segments))).
  { rewrite (surjective_pairing (segment_loop 0 [] segments)).
    f_equal.
    - exact (segment_loop_trace segments []).
    - exact (segment_loop_returns segments 0 []). }
  cbn [bind call emit may_raise fst snd]. rewrite Hloop.
  destruct failure as [e|];
    cbn [bind try_except call emit may_raise ret raise fst snd app].
  - destruct (exn_cls e); cbn [raise fst snd app];
      rewrite ?app_nil_r; reflexivity.
  - rewrite ?app_nil_r. reflexivity.
Qed.

Lemma transcribe_audio_reached w audio_file f :
  In (Call (model_transcribe f)) (fst (transcribe_audio w audio_file)) ->
  faster_whisper_imported w = None /\ model_loaded w = None /\
  f = audio_file.
Proof.
  unfold transcribe_audio. rewrite fst_try_except. intros H.
  apply in_app_or in H as [H | H].
  2:{ match type of H with
      | In _ match ?r with _ => _ end =>
          destruct r as [?|e]; [destruct H | destruct (exn_cls e); destruct H]
      end. }
  apply in_fst_bind_inv in H as [[H|[]] | ([] & Hi & H)]; [discriminate|].
  apply in_fst_bind_inv in H as [[H|[]] | (_ & _ & H)]; [discriminate|].
  apply in_fst_bind_inv in H as [[H|[]] | ([] & Hm & H)]; [discriminate|].
  cbn [snd call] in Hi, Hm.
  destruct (faster_whisper_imported w); [discriminate|].
  destruct (model_loaded w); [discriminate|].
  split; [reflexivity|]. split; [reflexivity|].
  apply in_fst_bind_inv in H as [[H|[]] | (_ & _ & H)]; [discriminate|].
  apply in_fst_bind_inv in H as [[H|[]] | ([[segments failure] info] & _ & H)].
  - injection H as H. symmetry. exact H.
  - exfalso.
    apply in_fst_bind_inv in H as [[H|[]] | (_ & _ & H)]; [discriminate|].
    apply in_fst_bind_inv in H as [H | (parts & _ & H)].
    + unfold iterate_segments in H.
      apply in_fst_bind_inv in H as [H | (parts & _ & H)].
      * cbn [fst] in H.
        replace (fst (segment_loop 0 [] segments))
          with (segment_events (length segments)) in H
          by (symmetry; exact (segment_loop_trace segments [])).
        apply in_map_iff in H as (i & Hi' & _). discriminate.
      * cbn [snd] in H. destruct failure; destruct H.
    + apply in_fst_bind_inv in H as [[H|[]] | (_ & _ & [])].
      discriminate.
Qed.

Lemma reach_bind {A B} (m : M A) (k : A -> M B) a (P : list action -> Prop) :
  In a (fst (bind m k)) -> ~ In a (fst m) ->
  (forall x, In a (fst (k x)) ->
     exists before t, fst (k x) = before ++ t /\ P t) ->
  exists before t, fst (bind m k) = before ++ t /\ P t.
Proof.
  intros Hin Hn Hk.
  apply in_fst_bind_inv in Hin as [H | (x & Hx & H)]; [contradiction|].
  destruct (Hk x H) as (b & t & E & HP).
  exists (fst m ++ b), t. rewrite (fst_bind_ok m k Hx), E, app_assoc. auto.
Qed.

Lemma orchestrator_reaches_recognition float w url f :
  In (Call (model_transcribe f))
     (fst (download_and_transcribe_with_progress float w url)) ->
  exists before t,
    fst (download_and_transcribe_with_progress float w url) = before ++ t /\
    exists temp_dir audio_file,
      t = fst (transcribe_audio w audio_file)
          ++ [Call (TemporaryDirectory_cleanup temp_dir)] /\
      In (Call (model_transcribe f)) (fst (transcribe_audio w audio_file)).
Proof.
  unfold download_and_transcribe_with_progress. intros H.
  eapply reach_bind; [exact H | intros [E|[]]; discriminate | clear H].
  intros _ H.
  eapply reach_bind; [exact H | intros [E|[]]; discriminate | clear H].
  intros _ H.
  eapply reach_bind; [exact H | | clear H].
  { destruct (get_disk_usage_returns w) as [usage ->].
    intros [E|[]]. discriminate. }
  intros usage H.
  eapply reach_bind; [exact H | | clear H].
  { destruct usage as [[free_mb total_mb]|]; [|intros []].
    intros Hc. apply in_fst_bind_inv in Hc as [Hc | (_ & _ & Hc)].
    - destruct (float_truthy free_mb && Qltb free_mb 100); destruct Hc.
    - destruct (float_truthy free_mb); [|destruct Hc].
      destruct Hc as [Hc|[]]. discriminate. }
  intros _ H.
  eapply reach_bind; [exact H | intros [E|[]]; discriminate | clear H].
  intros temp_dir H.
  rewrite fst_finally in H |- *.
  apply in_app_or in H as [H | [H|[]]]; [|discriminate].
  match type of H with
  | In _ (fst (try_except ?body ?h)) =>
      assert (Ht : fst (try_except body h) = fst body)
  end.
  { rewrite fst_try_except.
    match goal with
    | |- _ ++ match ?r with _ => _ end = _ => destruct r
    end; apply app_nil_r. }
  rewrite Ht in H |- *.
  match goal with
  | |- exists before t, fst ?body ++ _ = _ /\ _ =>
      assert (Hb : exists before audio_file,
                fst body = before ++ fst (transcribe_audio w audio_file) /\
                In (Call (model_transcribe f))
                   (fst (transcribe_audio w audio_file)))
  end.
  { clear Ht.
    assert (Hb : exists before t,
              (fst
                 (let progress_hook := ProgressHook_init in
                  call import_yt_dlp (may_raise (yt_dlp_imported w)) ;;
                  call (YoutubeDL (temp_dir ++ py "/audio.%(ext)s"))
                       (may_raise (YoutubeDL_opened w)) ;;
                  run_download float w progress_hook url ;;
                  names <- call (os_listdir temp_dir) (listdir w) ;;
                  match filter (startswith (py "audio.")) names with
                  | [] =>
                      raise (Exception_
                               (py "No audio file found after download"))
                  | file0 :: _ =>
                      let audio_file := path_join temp_dir file0 in
                      file_size <-
                        call (os_path_getsize audio_file) (getsize w) ;;
                      let file_size_mb :=
                        (inject_Z file_size / inject_Z (1024 * 1024))%Q in
                      print (py "Downloaded: " ++ file0 ++ py " ("
                             ++ format_fixed 1 file_size_mb ++ py "MB)") ;;
                      emit (progress {|
                        message := py "Download complete!";
                        detail := py "Audio file: "
                                  ++ format_fixed 1 file_size_mb
                                  ++ py "MB - preparing for transcription";
                        percentage := 100;
                        phase := download |}) ;;
                      emit (progress {|
                        message := py "Starting transcription...";
                        detail := py "Loading Whisper model";
                        percentage := 0;
                        phase := transcribe |}) ;;
                      transcribe_audio w audio_file
                  end)) = before ++ t /\
              (fun t => exists audio_file,
                 t = fst (transcribe_audio w audio_file) /\
                 In (Call (model_transcribe f)) t) t).
    { cbv zeta in H |- *.
      eapply reach_bind; [exact H | intros [E|[]]; discriminate | clear H].
      intros _ H.
      eapply reach_bind; [exact H | intros [E|[]]; discriminate | clear H].
      intros _ H.
      eapply reach_bind;
        [exact H | apply run_download_no_transcribe | clear H].
      intros _ H.
      eapply reach_bind; [exact H | intros [E|[]]; discriminate | clear H].
      intros names H.
      destruct (filter (startswith (py "audio.")) names) as [|file0 others];
        [destruct H|].
      eapply reach_bind; [exact H | intros [E|[]]; discriminate | clear H].
      intros file_size H.
      eapply reach_bind; [exact H | intros [E|[]]; discriminate | clear H].
      intros _ H.
      eapply reach_bind; [exact H | intros [E|[]]; discriminate | clear H].
      intros _ H.
      eapply reach_bind; [exact H | intros [E|[]]; discriminate | clear H].
      intros _ H.
      exists [], (fst (transcribe_audio w (path_join temp_dir file0))).
      split; [reflexivity|]. eauto. }
    destruct Hb as (before & t & E & audio_file & -> & Hin).
    exists before, audio_file. auto. }
  destruct Hb as (before & audio_file & E & Hin).
  exists before,
    (fst (transcribe_audio w audio_file)
     ++ [Call (TemporaryDirectory_cleanup temp_dir)]).
  split; [now rewrite E, app_assoc|]. eauto.
Qed.

(** C9. In every run that reaches the recognition call, the orchestrator
    emits, between the event that follows that call (80 percent) and the
    end of the recognition, exactly one progress event for every segment
    whose zero-based index is a multiple of 10, in order and nothing else;
    the percentage of the event for index [i] is [80 + i*15/(i+1)], [i+1]
    being the number of segments accumulated up to and including that
    one.  The same holds of the loop taken alone. *)
Theorem segment_progress_every_10th float w url audio_file segments failure
    info :
  transcribed w = Ok ((segments, failure), info) ->
  In (Call (model_transcribe audio_file))
     (fst (download_and_transcribe_with_progress float w url)) ->
  fst (segment_loop 0 [] segments) =
    map (fun i => Emit (segment_progress i (i + 1)))
        (filter every_10th (indices (length segments))) /\
  fst (iterate_segments (segments, failure)) = fst (segment_loop 0 [] segments)
  /\
  exists before temp_dir,
    fst (download_and_transcribe_with_progress float w url) =
    before
    ++ [Call (model_transcribe audio_file); Emit (language_progress info)]
    ++ map (fun i => Emit (segment_progress i (i + 1)))
           (filter every_10th (indices (length segments)))
    ++ match failure with
       | None => [Emit (completion_progress (assemble (map text segments)))]
       | Some _ => []
       end
    ++ [Call (TemporaryDirectory_cleanup temp_dir)].
Proof.
  intros Ht Hin. split; [exact (segment_loop_trace segments [])|]. split.
  { unfold iterate_segments. rewrite fst_bind, segment_loop_returns.
    cbn [fst snd]. destruct failure; apply app_nil_r. }
  destruct (orchestrator_reaches_recognition _ _ _ _ Hin)
    as (before & t & E & temp_dir & f' & -> & Hin').
  destruct (transcribe_audio_reached _ _ _ Hin') as (Hi & Hm & ->).
  rewrite (transcribe_audio_trace w f' Hi Hm Ht) in E.
  eexists (before ++ [_; _; _; _]), temp_dir.
  rewrite E. unfold segment_events.
  rewrite <- !app_assoc. reflexivity.
Qed.

Lemma segment_progress_every_10th_witness :
  exists before temp_dir,
    fst (download_and_transcribe_with_progress float_decimal
           (sample_world 500000000
              ["a"; "b"; "c"; "d"; "e"; "f"; "g"; "h"; "i"; "j"; "k";
               "l"]%string) sample_url) =
    before
    ++ [Call (model_transcribe (py "/tmp/tmpk3v9x2aa/audio.webm"));
        Emit (language_progress
                {| language := py "en"; language_probability := 99 # 100 |})]
    ++ [Emit (segment_progress 0 1); Emit (segment_progress 10 11)]
    ++ [Emit (completion_progress (py "a b c d e f g h i j k l"))]
    ++ [Call (TemporaryDirectory_cleanup temp_dir)].
Proof.
  apply (proj2 (proj2
    (@segment_progress_every_10th float_decimal
       (sample_world 500000000
          ["a"; "b"; "c"; "d"; "e"; "f"; "g"; "h"; "i"; "j"; "k";
           "l"]%string) sample_url (py "/tmp/tmpk3v9x2aa/audio.webm")
       (map (fun s => {| text := py s |})
          ["a"; "b"; "c"; "d"; "e"; "f"; "g"; "h"; "i"; "j"; "k";
           "l"]%string)
       None {| language := py "en"; language_probability := 99 # 100 |}
       eq_refl
       ltac:(vm_compute;
             repeat match goal with
                    | |- _ \/ _ => first [left; reflexivity | right]
                    end)))).
Defined.
